(** * cthyb: the [ctqmc] solver front end (src/c++/ctqmc.cpp)

    A shallow embedding of the constructor [ctqmc::ctqmc], of [ctqmc::solve]
    and of [ctqmc::solve_parameters], with the properties of the solver's
    set-up stage stated and proved over it.

    Conventions of the embedding:
    - a C++ [int] is an integer of [Z] kept in the 32-bit two's-complement
      range by [wrap_int]; [int] arithmetic wraps around;
    - a finite [double] is carried as a rational of [Q]; the embedding only
      passes doubles around, it performs no arithmetic on them;
    - a [std::map<std::string, T>] that is only iterated is the list of its
      entries in iteration order; a parameter dictionary is a [gmap string];
    - a [std::vector] is a list, [v[i]] is list lookup, and an access out of
      range, which C++ leaves undefined, is the outcome [Raise Out_of_range];
      the size of a container converts to [int] unchanged;
    - the numerical library is an interface: the class [Triqs] for Green's
      functions and many-body operators, the class [Sampler] for a run of the
      Monte Carlo driver. *)

From stdpp Require Import base option list gmap strings pretty.
From Stdlib Require Import ZArith QArith Lia.

#[local] Open Scope Z_scope.
#[local] Open Scope string_scope.

(** ** Machine integers *)

Module Int.

Definition modulus : Z := 2 ^ 32.
Definition half_modulus : Z := 2 ^ 31.
Definition min_int : Z := - half_modulus.
Definition max_int : Z := half_modulus - 1.

(** Reduction to the two's-complement representative. *)
Definition wrap_int (z : Z) : Z := (z + half_modulus) mod modulus - half_modulus.

Definition in_range (z : Z) : Prop := min_int <= z <= max_int.

Definition add (a b : Z) : Z := wrap_int (a + b).
Definition mul (a b : Z) : Z := wrap_int (a * b).

End Int.

(** ** Outcomes: a value, or a C++ exception *)

Inductive exn : Type :=
  | Runtime_error (msg : string)   (* TRIQS_RUNTIME_ERROR *)
  | Bad_parameter (key : string)   (* a parameter absent or of another type *)
  | Out_of_range.                  (* an index past the end of a vector *)

Inductive outcome (A : Type) : Type :=
  | Ret (a : A)
  | Raise (e : exn).
Arguments Ret {A} a.
Arguments Raise {A} e.

Definition obind {A B : Type} (m : outcome A) (k : A → outcome B) : outcome B :=
  match m with
  | Ret a => k a
  | Raise e => Raise e
  end.

Notation "'let*' x := m 'in' k" := (obind m (fun x => k))
  (at level 10, x pattern, m at level 100, k at level 200).

Definition of_option {A : Type} (e : exn) (o : option A) : outcome A :=
  match o with
  | Some a => Ret a
  | None => Raise e
  end.

(** [v[i]] on a vector. *)
Definition at_index {A : Type} (v : list A) (i : nat) : outcome A :=
  of_option Out_of_range (v !! i).

(** ** Parameters *)

Inductive ptype : Type := T_int | T_bool | T_string.

Inductive pvalue : Type :=
  | V_int (z : Z)
  | V_bool (b : bool)
  | V_string (s : string).

(** The second argument of [add_field]: a default value, or [no_default<T>()]. *)
Inductive pdefault : Type :=
  | default_value (v : pvalue)
  | no_default (t : ptype).

Record field : Type := Field { f_default : pdefault; f_doc : string }.

Definition add_field (name : string) (d : pdefault) (doc : string)
    (p : gmap string field) : gmap string field :=
  <[name := Field d doc]> p.

(** [int(34788 + 928374 * world.rank())] *)
Definition default_seed (rank : Z) : Z := Int.add 34788 (Int.mul 928374 rank).

(** [ctqmc::solve_parameters]; [rank] is [world.rank()]. *)
Definition solve_parameters (rank : Z) : gmap string field :=
  let pdef : gmap string field := ∅ in
  let pdef := add_field "n_cycles" (no_default T_int) "Number of QMC cycles" pdef in
  let pdef := add_field "length_cycle" (default_value (V_int 50)) "Length of a single QMC cycle" pdef in
  let pdef := add_field "n_warmup_cycles" (default_value (V_int 5000)) "Number of cycles for thermalization" pdef in
  let pdef := add_field "random_seed" (default_value (V_int (default_seed rank))) "Seed for random number generator" pdef in
  let pdef := add_field "random_name" (default_value (V_string EmptyString)) "Name of random number generator" pdef in
  let pdef := add_field "max_time" (default_value (V_int (-1))) "Maximum runtime in seconds, use -1 to set infinite" pdef in
  let pdef := add_field "verbosity" (default_value (if Z.eqb rank 0 then V_int 3 else V_int 0)) "Verbosity level" pdef in
  let pdef := add_field "use_trace_estimator" (default_value (V_bool false)) "Calculate the full trace or use an estimate?" pdef in
  let pdef := add_field "measure_g_tau" (default_value (V_bool true)) "Whether to measure G(tau)" pdef in
  let pdef := add_field "measure_pert_order" (default_value (V_bool false)) "Whether to measure perturbation order" pdef in
  let pdef := add_field "make_histograms" (default_value (V_bool false)) "Make the analysis histograms of the trace computation" pdef in
  pdef.

(** The default recorded for an option, if the option is recognized. *)
Definition default_of (p : gmap string field) (name : string) : option pdefault :=
  f_default <$> p !! name.

(** The runtime options the specification documents, by name. *)
Definition documented_options : gset string :=
  {[ "n_cycles"; "length_cycle"; "n_warmup_cycles"; "random_seed"; "max_time";
     "measure_g_tau"; "measure_pert_order"; "use_trace_estimator" ]}.

(** The options of the source that the specification does not list. *)
Definition undocumented_options : gset string :=
  {[ "random_name"; "verbosity"; "make_histograms" ]}.

(** [params[key]] read as a [bool], as an [int]. *)
Definition param_bool (params : gmap string pvalue) (key : string) : outcome bool :=
  match params !! key with
  | Some (V_bool b) => Ret b
  | _ => Raise (Bad_parameter key)
  end.

Definition param_int (params : gmap string pvalue) (key : string) : outcome Z :=
  match params !! key with
  | Some (V_int z) => Ret z
  | _ => Raise (Bad_parameter key)
  end.

(** ** Green's functions *)

Inductive statistic_enum : Type := Boson | Fermion.
Inductive mesh_kind : Type := half_bins | full_bins | without_last.

(** [gf_mesh<imfreq>{beta, S, n_max}] and [gf_mesh<imtime>{beta, S, n_max, kind}]. *)
Record imfreq_mesh : Type :=
  Imfreq { w_beta : Q; w_statistic : statistic_enum; w_n_max : Z }.
Record imtime_mesh : Type :=
  Imtime { t_beta : Q; t_statistic : statistic_enum; t_n_max : Z; t_kind : mesh_kind }.

(** A matrix-valued Green's function: its mesh, the shape of the matrices,
    and the numbers it holds (data array and high-frequency tail). *)
Record gf (M D : Type) : Type :=
  Gf { mesh : M; target_shape : Z * Z; data : D }.
Arguments Gf {M D} mesh target_shape data.
Arguments mesh {M D} g.
Arguments target_shape {M D} g.
Arguments data {M D} g.

(** [g() = rhs]: assignment through a view keeps the mesh and the shape of
    the target and copies the numbers. *)
Definition view_assign {M D : Type} (g : gf M D) (rhs : D) : gf M D :=
  Gf (mesh g) (target_shape g) rhs.

(** [gf<block_index, G>]: the block names and the blocks. *)
Record block_gf (G : Type) : Type :=
  Block_gf { names : list string; blocks : list G }.
Arguments Block_gf {G} names blocks.
Arguments names {G} b.
Arguments blocks {G} b.

(** [make_block_gf(block_names, V)] *)
Definition make_block_gf {G : Type} (block_names : list string) (V : list G) : block_gf G :=
  Block_gf block_names V.

(** [make_block_gf(V)]: the blocks are named by their position. *)
Definition make_block_gf_unnamed {G : Type} (V : list G) : block_gf G :=
  Block_gf (map (λ i : nat, pretty i) (seq 0 (length V))) V.

(** [g.domain().size()] *)
Definition domain_size {G : Type} (g : block_gf G) : nat := length (names g).

(** Expressions in the placeholder [iw_]. *)
Inductive clef_expr (C : Type) : Type :=
  | Iw_
  | Const (c : C)
  | Mul (a b : clef_expr C)
  | Add (a b : clef_expr C).
Arguments Iw_ {C}.
Arguments Const {C} c.
Arguments Mul {C} a b.
Arguments Add {C} a b.

(** ** The configuration of the sampler *)

(** Modelled from the spec: the operator insertions and the configuration held
    by [qmc_data] (qmc_data.hpp, which is not part of the sources at hand).
    An insertion is an imaginary time, a block, an inner orbital index and a
    kind; the configuration is created empty. *)
Record operator_insertion : Type :=
  Insertion { ins_tau : Q; ins_block : nat; ins_inner : nat; ins_dagger : bool }.

Definition empty_configuration : list operator_insertion := [].

(** ** Moves and measurements *)

Inductive move : Type :=
  | move_insert_c_cdag (block : nat) (block_size : Z) (record_histograms : bool)
  | move_remove_c_cdag (block : nat) (block_size : Z).

Inductive measure : Type :=
  | measure_g (block : nat)
  | measure_perturbation_hist (block : nat) (filename : string).

(** [mc_tools::mc_generic]: the moves and the measurements registered so far,
    each under its name. *)
Record mc_generic : Type :=
  Mc_generic {
    mc_params : gmap string pvalue;
    mc_moves : list (move * string);
    mc_measures : list (measure * string) }.

Definition add_move (m : move) (name : string) (qmc : mc_generic) : mc_generic :=
  Mc_generic (mc_params qmc) (mc_moves qmc ++ [(m, name)]) (mc_measures qmc).

Definition add_measure (m : measure) (name : string) (qmc : mc_generic) : mc_generic :=
  Mc_generic (mc_params qmc) (mc_moves qmc) (mc_measures qmc ++ [(m, name)]).

(** A loop whose body may throw. *)
Fixpoint foldM {A B : Type} (f : A → B → outcome A) (l : list B) (a : A) : outcome A :=
  match l with
  | [] => Ret a
  | x :: l' => let* a' := f a x in foldM f l' a'
  end.

(** ** The numerical library *)

Class Triqs : Type := {
  (* the numbers held by a Green's function on Matsubara frequencies, on
     imaginary time, and a coefficient matrix of a high-frequency tail *)
  freq_data : Type;
  time_data : Type;
  tail_matrix : Type;
  freq_zero : imfreq_mesh → Z * Z → freq_data;
  time_zero : imtime_mesh → Z * Z → time_data;
  (* triqs::gfs::inverse, operator-, g.singularity()(k), m(i,j).real() *)
  inverse : gf imfreq_mesh freq_data → gf imfreq_mesh freq_data;
  gf_sub : gf imfreq_mesh freq_data → gf imfreq_mesh freq_data → gf imfreq_mesh freq_data;
  singularity : gf imfreq_mesh freq_data → Z → tail_matrix;
  real_part_at : tail_matrix → Z → Z → Q;
  (* the values of an expression in iw_ on a mesh *)
  clef_eval : clef_expr tail_matrix → imfreq_mesh → Z * Z → freq_data;
  (* inverse_fourier, evaluated on the mesh of the view it is assigned to *)
  inverse_fourier : gf imfreq_mesh freq_data → imtime_mesh → Z * Z → time_data;
  (* many-body operators with real coefficients *)
  real_operator_t : Type;
  op_add : real_operator_t → real_operator_t → real_operator_t;
  op_mul : real_operator_t → real_operator_t → real_operator_t;
  op_scale : Q → real_operator_t → real_operator_t;
  c_dag : string → Z → real_operator_t;
  c : string → Z → real_operator_t;
  (* fundamental_operator_set *)
  fundamental_operator_set : Type;
  fops_empty : fundamental_operator_set;
  fops_insert : fundamental_operator_set → string → Z → fundamental_operator_set;
  fops_index : fundamental_operator_set → string → Z → Z;
  (* sorted_spaces, from a Hamiltonian alone or with quantum numbers *)
  sorted_spaces : Type;
  sosp_of_hamiltonian : real_operator_t → fundamental_operator_set → sorted_spaces;
  sosp_of_quantum_numbers :
    real_operator_t → list real_operator_t → fundamental_operator_set → sorted_spaces;
}.

(** Green's functions on Matsubara frequencies and on imaginary time. *)
Abbreviation gf_imfreq := (gf imfreq_mesh freq_data).
Abbreviation gf_imtime := (gf imtime_mesh time_data).

(** ** The solver *)

Section Solver.
Context `{T : Triqs}.

(** [gf<imfreq>{{beta, S, n_iw}, {n, m}}] and
    [gf<imtime>{{beta, S, n_tau, kind}, {n, m}}]: a Green's function whose
    numbers are all zero. *)
Definition new_gf_imfreq (m : imfreq_mesh) (shape : Z * Z) : gf_imfreq :=
  Gf m shape (freq_zero m shape).

Definition new_gf_imtime (m : imtime_mesh) (shape : Z * Z) : gf_imtime :=
  Gf m shape (time_zero m shape).

(** [g(iw_) << e]: the values of [e] are written on the mesh of [g]. *)
Definition clef_assign (g : gf_imfreq) (e : clef_expr tail_matrix) : gf_imfreq :=
  view_assign g (clef_eval e (mesh g) (target_shape g)).

(** [g[b]] and [g[b] = x] on a block Green's function. *)
Definition block_at {G : Type} (g : block_gf G) (b : nat) : outcome G :=
  at_index (blocks g) b.

Definition set_block {G : Type} (b : nat) (x : G) (g : block_gf G) : block_gf G :=
  Block_gf (names g) (<[b := x]> (blocks g)).

(** The members of the class [ctqmc]. *)
Record ctqmc : Type :=
  Ctqmc {
    beta : Q;
    gf_struct : list (string * list Z);
    G0_iw : block_gf gf_imfreq;
    G_tau : block_gf gf_imtime;
    Delta_tau : block_gf gf_imtime;
    sosp : option sorted_spaces }.

Definition too_few_tau_points (n_iw n_tau : Z) : string :=
  "Must use as least twice as many tau points as Matsubara frequencies: n_iw = "
    +:+ pretty n_iw +:+ " but n_tau = " +:+ pretty n_tau +:+ ".".

(** The four vectors the constructor fills, one [push_back] each per block. *)
Record ctor_vectors : Type :=
  Ctor_vectors {
    block_names : list string;
    g0_iw_blocks : list gf_imfreq;
    g_tau_blocks : list gf_imtime;
    delta_tau_blocks : list gf_imtime }.

Definition ctor_push (beta_ : Q) (n_iw n_tau : Z) (v : ctor_vectors)
    (block : string * list Z) : ctor_vectors :=
  let n := Z.of_nat (length block.2) in
  Ctor_vectors
    (block_names v ++ [block.1])
    (g0_iw_blocks v ++ [new_gf_imfreq (Imfreq beta_ Fermion n_iw) (n, n)])
    (g_tau_blocks v ++ [new_gf_imtime (Imtime beta_ Fermion n_tau half_bins) (n, n)])
    (delta_tau_blocks v ++ [new_gf_imtime (Imtime beta_ Fermion n_tau half_bins) (n, n)]).

(** [ctqmc::ctqmc(beta_, gf_struct_, n_iw, n_tau)] *)
Definition ctqmc_ctor (beta_ : Q) (gf_struct_ : list (string * list Z))
    (n_iw n_tau : Z) : outcome ctqmc :=
  if Z.leb n_tau (Int.mul 2 n_iw) then Raise (Runtime_error (too_few_tau_points n_iw n_tau))
  else
    let v := fold_left (ctor_push beta_ n_iw n_tau) gf_struct_ (Ctor_vectors [] [] [] []) in
    Ret (Ctqmc beta_ gf_struct_
           (make_block_gf (block_names v) (g0_iw_blocks v))
           (make_block_gf (block_names v) (g_tau_blocks v))
           (make_block_gf (block_names v) (delta_tau_blocks v))
           None).

(** *** [solve]: the basis of operators *)

Record basis : Type :=
  Basis { fops : fundamental_operator_set; linindex : gmap (nat * nat) Z }.

Definition basis_inner (block_index : nat) (name : string)
    (s : basis * nat) (a : Z) : basis * nat :=
  let '(bs, inner_index) := s in
  let fops' := fops_insert (fops bs) name a in
  (Basis fops' (<[(block_index, inner_index) := fops_index fops' name a]> (linindex bs)),
   S inner_index).

Definition basis_outer (s : basis * nat) (b : string * list Z) : basis * nat :=
  let '(bs, block_index) := s in
  ((fold_left (basis_inner block_index b.1) b.2 (bs, 0%nat)).1, S block_index).

Definition operator_basis (gs : list (string * list Z)) : basis :=
  (fold_left basis_outer gs (Basis fops_empty ∅, 0%nat)).1.

(** *** [solve]: the quadratic terms added to [h_loc] *)

(** [G0_iw[b].singularity()(2)(a1,a2).real() * c_dag(bl,a1) * c(bl,a2)] *)
Definition quadratic_term (g : gf_imfreq) (bl : string) (a1 a2 : Z) : real_operator_t :=
  op_mul (op_scale (real_part_at (singularity g 2) a1 a2) (c_dag bl a1)) (c bl a2).

Definition quadratic_inner (G0 : block_gf gf_imfreq) (b : nat) (bl : string) (a1 : Z)
    (h_loc : real_operator_t) (a2 : Z) : outcome real_operator_t :=
  let* g := block_at G0 b in
  Ret (op_add h_loc (quadratic_term g bl a1 a2)).

Definition quadratic_middle (G0 : block_gf gf_imfreq) (b : nat) (bl : string * list Z)
    (h_loc : real_operator_t) (a1 : Z) : outcome real_operator_t :=
  foldM (quadratic_inner G0 b bl.1 a1) bl.2 h_loc.

Definition quadratic_outer (G0 : block_gf gf_imfreq)
    (s : real_operator_t * nat) (bl : string * list Z) : outcome (real_operator_t * nat) :=
  let '(h_loc, b) := s in
  let* h_loc' := foldM (quadratic_middle G0 b bl) bl.2 h_loc in
  Ret (h_loc', S b).

Definition add_quadratic_terms (G0 : block_gf gf_imfreq) (gs : list (string * list Z))
    (h_loc : real_operator_t) : outcome real_operator_t :=
  let* s := foldM (quadratic_outer G0) gs (h_loc, 0%nat) in
  Ret s.1.

(** *** [solve]: the hybridization function *)

(** What the loop over the blocks reads and writes. *)
Record hyb_state : Type :=
  Hyb_state {
    hs_Delta_iw : block_gf gf_imfreq;
    hs_Delta_tau : block_gf gf_imtime;
    hs_G0_iw : block_gf gf_imfreq }.

(** [t(-1) * iw_ + t(0)] and [iw_ + t(0)], with [t] the tail of [ginv]. *)
Definition tail_affine (ginv : gf_imfreq) : clef_expr tail_matrix :=
  Add (Mul (Const (singularity ginv (-1))) Iw_) (Const (singularity ginv 0)).

Definition iw_plus_tail0 (ginv : gf_imfreq) : clef_expr tail_matrix :=
  Add Iw_ (Const (singularity ginv 0)).

Definition hyb_body (G0_iw_inv : block_gf gf_imfreq)
    (s : hyb_state * nat) (bl : string * list Z) : outcome (hyb_state * nat) :=
  let '(hs, b) := s in
  (* Delta_iw[b](iw_) << G0_iw_inv[b].singularity()(-1)*iw_ + G0_iw_inv[b].singularity()(0); *)
  let* d := block_at (hs_Delta_iw hs) b in
  let* ginv := block_at G0_iw_inv b in
  let Delta_iw := set_block b (clef_assign d (tail_affine ginv)) (hs_Delta_iw hs) in
  (* Delta_iw[b] = Delta_iw[b] - G0_iw_inv[b]; *)
  let* d := block_at Delta_iw b in
  let Delta_iw := set_block b (gf_sub d ginv) Delta_iw in
  (* Delta_tau[b]() = inverse_fourier(Delta_iw[b]); *)
  let* dt := block_at (hs_Delta_tau hs) b in
  let* d := block_at Delta_iw b in
  let Delta_tau := set_block b (view_assign dt (inverse_fourier d (mesh dt) (target_shape dt)))
                     (hs_Delta_tau hs) in
  (* G0_iw[b](iw_) << iw_ + G0_iw_inv[b].singularity()(0); *)
  let* g := block_at (hs_G0_iw hs) b in
  let G0_iw := set_block b (clef_assign g (iw_plus_tail0 ginv)) (hs_G0_iw hs) in
  (* G0_iw[b] = G0_iw[b] - Delta_iw[b]; *)
  let* g := block_at G0_iw b in
  let G0_iw := set_block b (gf_sub g d) G0_iw in
  (* G0_iw[b]() = triqs::gfs::inverse(G0_iw[b]); *)
  let* g := block_at G0_iw b in
  let G0_iw := set_block b (view_assign g (data (inverse g))) G0_iw in
  Ret (Hyb_state Delta_iw Delta_tau G0_iw, S b).

Definition hybridization (gs : list (string * list Z)) (G0_iw_inv : block_gf gf_imfreq)
    (hs : hyb_state) : outcome hyb_state :=
  let* s := foldM (hyb_body G0_iw_inv) gs (hs, 0%nat) in
  Ret s.1.

(** *** [solve]: the data shared by the moves and the measurements *)

(** [qmc_data]: what the moves and the measurements share. *)
Record qmc_data : Type :=
  Qmc_data {
    d_beta : Q;
    d_params : gmap string pvalue;
    d_sosp : sorted_spaces;
    d_linindex : gmap (nat * nat) Z;
    d_delta : block_gf gf_imtime;
    d_config : list operator_insertion }.

(** Modelled from the spec: the constructor of [qmc_data], called as
    [qmc_data data(beta, params, sosp, linindex, Delta_tau)] (qmc_data.hpp is
    not part of the sources at hand). It keeps its arguments and creates the
    configuration empty. *)
Definition new_qmc_data (beta_ : Q) (params : gmap string pvalue) (sp : sorted_spaces)
    (lin : gmap (nat * nat) Z) (delta : block_gf gf_imtime) : qmc_data :=
  Qmc_data beta_ params sp lin delta empty_configuration.

(** The Monte Carlo driver at work: [qmc.start(sign, clock_callback(max_time))]
    followed by [qmc.collect_results(_comm)], as the block Green's function the
    measurements leave in [G_tau]. [world] stands for what the run depends on
    besides its arguments: the random stream, the clock, the communicator. *)
Class Sampler : Type := {
  world : Type;
  mc_run : world → mc_generic → qmc_data → Q → Z → block_gf gf_imtime → block_gf gf_imtime;
}.

Context `{MC : Sampler}.

(** *** [solve]: moves and measurements *)

Definition register_moves_body (delta : block_gf gf_imtime)
    (qmc : mc_generic) (block : nat) : outcome mc_generic :=
  let delta_names := names delta in
  let* dt := block_at delta block in
  let block_size := (target_shape dt).1 in
  let* name := at_index delta_names block in
  let qmc := add_move (move_insert_c_cdag block block_size false) ("Insert Delta_" +:+ name) qmc in
  let* name := at_index delta_names block in
  Ret (add_move (move_remove_c_cdag block block_size) ("Remove Delta_" +:+ name) qmc).

Definition register_moves (delta : block_gf gf_imtime) (qmc : mc_generic) : outcome mc_generic :=
  foldM (register_moves_body delta) (seq 0 (domain_size delta)) qmc.

Definition measure_g_body (g_tau : block_gf gf_imtime)
    (qmc : mc_generic) (block : nat) : outcome mc_generic :=
  let g_names := names g_tau in
  let* _ := block_at g_tau block in
  let* name := at_index g_names block in
  Ret (add_measure (measure_g block) ("G measure (" +:+ name +:+ ")") qmc).

Definition measure_hist_body (g_tau : block_gf gf_imtime)
    (qmc : mc_generic) (block : nat) : outcome mc_generic :=
  let g_names := names g_tau in
  let* name := at_index g_names block in
  let file := "histo_pert_order_" +:+ name +:+ ".dat" in
  let* name := at_index g_names block in
  Ret (add_measure (measure_perturbation_hist block file)
         ("Perturbation order (" +:+ name +:+ ")") qmc).

Definition register_measures (params : gmap string pvalue) (g_tau : block_gf gf_imtime)
    (qmc : mc_generic) : outcome mc_generic :=
  let* on := param_bool params "measure_g_tau" in
  let* qmc :=
    if on then foldM (measure_g_body g_tau) (seq 0 (domain_size g_tau)) qmc else Ret qmc in
  let* on := param_bool params "measure_pert_order" in
  if on then foldM (measure_hist_body g_tau) (seq 0 (domain_size g_tau)) qmc else Ret qmc.

(** *** [solve] *)

(** The local variables of [solve] when the run starts, and the two
    arguments of [qmc.start]. *)
Record solve_locals : Type :=
  Solve_locals {
    l_h_loc : real_operator_t;
    l_basis : basis;
    l_G0_iw_inv : block_gf gf_imfreq;
    l_Delta_iw : block_gf gf_imfreq;
    l_data : qmc_data;
    l_qmc : mc_generic;
    l_initial_sign : Q;
    l_max_time : Z }.

(** [ctqmc::solve(h_loc, params, quantum_numbers, use_quantum_numbers)], on
    the solver [self], in the world [w]. *)
Definition solve (w : world) (h_loc : real_operator_t) (params : gmap string pvalue)
    (quantum_numbers : list real_operator_t) (use_quantum_numbers : bool)
    (self : ctqmc) : outcome (ctqmc * solve_locals) :=
  (* determine basis of operators to use *)
  let bs := operator_basis (gf_struct self) in
  (* Calculate imfreq quantities *)
  let G0_iw_inv := make_block_gf_unnamed (map inverse (blocks (G0_iw self))) in
  let Delta_iw := G0_iw_inv in
  (* Add quadratic terms to h_loc *)
  let* h_loc := add_quadratic_terms (G0_iw self) (gf_struct self) h_loc in
  (* Determine terms Delta_iw from G0_iw *)
  let* hs := hybridization (gf_struct self) G0_iw_inv
               (Hyb_state Delta_iw (Delta_tau self) (G0_iw self)) in
  (* Determine block structure *)
  let sp :=
    if use_quantum_numbers then sosp_of_quantum_numbers h_loc quantum_numbers (fops bs)
    else sosp_of_hamiltonian h_loc (fops bs) in
  let data_ := new_qmc_data (beta self) params sp (linindex bs) (hs_Delta_tau hs) in
  let qmc := Mc_generic params [] [] in
  (* Moves *)
  let* qmc := register_moves (hs_Delta_tau hs) qmc in
  (* Measurements *)
  let* qmc := register_measures params (G_tau self) qmc in
  (* run!! The empty configuration has sign = 1 *)
  let* max_time := param_int params "max_time" in
  let g_tau := mc_run w qmc data_ 1%Q max_time (G_tau self) in
  Ret (Ctqmc (beta self) (gf_struct self) (hs_G0_iw hs) g_tau (hs_Delta_tau hs) (Some sp),
       Solve_locals h_loc bs G0_iw_inv (hs_Delta_iw hs) data_ qmc 1%Q max_time).

End Solver.

(** ** The statements of the specification, in the terms of the embedding *)

(** The rejection condition as the specification words it: fewer imaginary
    time points than twice the number of Matsubara frequencies. *)
Definition spec_rejects (n_iw n_tau : Z) : bool := Z.ltb n_tau (2 * n_iw).

(** The rejection condition of the constructor. *)
Definition ctor_rejects (n_iw n_tau : Z) : bool := Z.leb n_tau (Int.mul 2 n_iw).

Section Statements.
Context `{T : Triqs}.

(** [tail(-1)*i*omega + tail(0) - inverse(g0)], the tail being that of
    [inverse(g0)], on the mesh of [g0]'s inverse. *)
Definition delta_iw_of (g0 : gf_imfreq) : gf_imfreq :=
  gf_sub (clef_assign (inverse g0) (tail_affine (inverse g0))) (inverse g0).

(** The inverse Fourier transform of [delta_iw_of g0], written into [dt]. *)
Definition delta_tau_of (g0 : gf_imfreq) (dt : gf_imtime) : gf_imtime :=
  view_assign dt (inverse_fourier (delta_iw_of g0) (mesh dt) (target_shape dt)).

(** [i*omega + tail(0) of inverse(g0) - Delta_iw], before it is inverted. *)
Definition corrected_inverse (g0 : gf_imfreq) : gf_imfreq :=
  gf_sub (clef_assign g0 (iw_plus_tail0 (inverse g0))) (delta_iw_of g0).

(** The tail-corrected propagator that replaces [g0]. *)
Definition weiss_field_after (g0 : gf_imfreq) : gf_imfreq :=
  view_assign (corrected_inverse g0) (data (inverse (corrected_inverse g0))).

(** The quadratic terms of one block, for all ordered pairs of its indices,
    and of all blocks, in the order of the loops. *)
Definition block_terms (g : gf_imfreq) (bl : string * list Z) : list real_operator_t :=
  flat_map (λ a1, map (λ a2, quadratic_term g bl.1 a1 a2) bl.2) bl.2.

Definition all_quadratic_terms (g0s : list gf_imfreq) (gs : list (string * list Z))
    : list real_operator_t :=
  concat (zip_with block_terms g0s gs).

(** The matrix shape of the block of an entry of [gf_struct]. *)
Definition block_shape (bl : string * list Z) : Z * Z :=
  (Z.of_nat (length bl.2), Z.of_nat (length bl.2)).

(** The block structure the constructor sets up: the three block Green's
    functions carry the names of [gf_struct], in its order, and blocks of the
    matching shapes. *)
Definition well_formed (self : ctqmc) : Prop :=
  let gs := gf_struct self in
  (names (G0_iw self) = map fst gs ∧ map target_shape (blocks (G0_iw self)) = map block_shape gs)
  ∧ (names (G_tau self) = map fst gs ∧ map target_shape (blocks (G_tau self)) = map block_shape gs)
  ∧ (names (Delta_tau self) = map fst gs
     ∧ map target_shape (blocks (Delta_tau self)) = map block_shape gs).

End Statements.

(** The three options [solve] reads, present and of the types it expects. *)
Definition reads_options (params : gmap string pvalue) (g p : bool) (t : Z) : Prop :=
  params !! "measure_g_tau" = Some (V_bool g)
  ∧ params !! "measure_pert_order" = Some (V_bool p)
  ∧ params !! "max_time" = Some (V_int t).

(** Counting the registrations of a driver. *)
Fixpoint count_if {A : Type} (p : A → bool) (l : list A) : nat :=
  match l with
  | [] => 0%nat
  | x :: l' => ((if p x then 1 else 0) + count_if p l')%nat
  end.

(** 1 when [b] is one of the [n] indices from [k] on, 0 otherwise. *)
Definition in_span (k n b : nat) : nat :=
  if bool_decide (k ≤ b < k + n)%nat then 1%nat else 0%nat.

Definition is_insert_for (b : nat) (m : move * string) : bool :=
  match m.1 with
  | move_insert_c_cdag b' _ _ => Nat.eqb b b'
  | move_remove_c_cdag _ _ => false
  end.

Definition is_remove_for (b : nat) (m : move * string) : bool :=
  match m.1 with
  | move_insert_c_cdag _ _ _ => false
  | move_remove_c_cdag b' _ => Nat.eqb b b'
  end.

Definition is_measure_g_for (b : nat) (m : measure * string) : bool :=
  match m.1 with
  | measure_g b' => Nat.eqb b b'
  | measure_perturbation_hist _ _ => false
  end.

Definition is_measure_hist_for (b : nat) (m : measure * string) : bool :=
  match m.1 with
  | measure_g _ => false
  | measure_perturbation_hist b' _ => Nat.eqb b b'
  end.

(** ** A symbolic instance of the library

    Every number is the text of the expression that computes it, so that a
    run of the embedding shows which library calls produced a value. *)

Module Symbolic.

Definition paren (f x : string) : string := f +:+ "(" +:+ x +:+ ")".

Fixpoint show_expr (e : clef_expr string) : string :=
  match e with
  | Iw_ => "iw"
  | Const c => c
  | Mul a b => paren "mul" (show_expr a +:+ "," +:+ show_expr b)
  | Add a b => paren "add" (show_expr a +:+ "," +:+ show_expr b)
  end.

#[export] Instance triqs : Triqs := {|
  freq_data := string;
  time_data := string;
  tail_matrix := string;
  freq_zero := λ _ _, "0";
  time_zero := λ _ _, "0";
  inverse := λ g, Gf (mesh g) (target_shape g) (paren "inverse" (data g));
  gf_sub := λ g h, Gf (mesh g) (target_shape g) (paren "sub" (data g +:+ "," +:+ data h));
  singularity := λ g k, paren "tail" (data g +:+ "," +:+ pretty k);
  real_part_at := λ m i j, inject_Z (10 * i + j);
  clef_eval := λ e _ _, show_expr e;
  inverse_fourier := λ g _ _, paren "inverse_fourier" (data g);
  real_operator_t := string;
  op_add := λ a b, paren "add" (a +:+ "," +:+ b);
  op_mul := λ a b, paren "mul" (a +:+ "," +:+ b);
  op_scale := λ q a, paren "scale" (pretty (Qnum q) +:+ "," +:+ a);
  c_dag := λ bl a, paren "c_dag" (bl +:+ "," +:+ pretty a);
  c := λ bl a, paren "c" (bl +:+ "," +:+ pretty a);
  fundamental_operator_set := list (string * Z);
  fops_empty := [];
  fops_insert := λ f bl a, (f ++ [(bl, a)])%list;
  fops_index := λ f bl a, Z.of_nat (length f) - 1;
  sorted_spaces := string;
  sosp_of_hamiltonian := λ h _, paren "sosp" h;
  sosp_of_quantum_numbers := λ h _ _, paren "sosp_qn" h;
|}.

#[export] Instance sampler : Sampler := {|
  world := unit;
  mc_run := λ _ _ _ _ _ g, g;
|}.

(** Two blocks, of two orbitals and of one; three Matsubara frequencies and
    seven imaginary-time points. *)
Definition two_blocks : list (string * list Z) := [("down", [0; 1]); ("up", [0])].

Definition constructed_solver : ctqmc :=
  match ctqmc_ctor 10 two_blocks 3 7 with
  | Ret s => s
  | Raise _ => Ctqmc 10 [] (Block_gf [] []) (Block_gf [] []) (Block_gf [] []) None
  end.

(** The caller writes a Weiss field into [G0_iw], block by block. *)
Definition with_weiss_field (ds : list string) (s : ctqmc) : ctqmc :=
  Ctqmc (beta s) (gf_struct s)
    (Block_gf (names (G0_iw s)) (zip_with view_assign (blocks (G0_iw s)) ds))
    (G_tau s) (Delta_tau s) (sosp s).

Definition example_solver : ctqmc := with_weiss_field ["G0_down"; "G0_up"] constructed_solver.

Definition example_params : gmap string pvalue :=
  <["measure_g_tau" := V_bool true]>
    (<["measure_pert_order" := V_bool true]> (<["max_time" := V_int (-1)]> ∅)).

End Symbolic.

(** ** More of the source, and what is stated about it *)

(** The template [map(f, V)] on vectors: an empty result, then one
    [emplace_back] per element of [V]. *)
Definition vector_map {A B : Type} (f : A → B) (V : list A) : list B :=
  fold_left (λ res x, res ++ [f x])%list V [].

(** The template [map(f, g)] on block Green's functions:
    [make_block_gf(map(f, g.data()))]. *)
Definition block_gf_map {G H : Type} (f : G → H) (g : block_gf G) : block_gf H :=
  make_block_gf_unnamed (vector_map f (blocks g)).

(** The operators of a block structure, a block name with an index, in the
    order in which the loops of [solve] meet them. *)
Definition all_operators (gs : list (string * list Z)) : list (string * Z) :=
  flat_map (λ bl, map (pair bl.1) bl.2) gs.

(** The number of operators met before block [b]. *)
Definition block_offset (gs : list (string * list Z)) (b : nat) : nat :=
  length (all_operators (take b gs)).

(** [fops.insert] of a list of operators, one after the other. *)
Definition insert_all `{T : Triqs} (ops : list (string * Z))
    (f : fundamental_operator_set) : fundamental_operator_set :=
  fold_left (λ f op, fops_insert f op.1 op.2) ops f.

(** The two moves of block [bl], the block at position [b], under their names. *)
Definition move_pair (b : nat) (bl : string * list Z) : list (move * string) :=
  [(move_insert_c_cdag b (Z.of_nat (length bl.2)) false, "Insert Delta_" +:+ bl.1);
   (move_remove_c_cdag b (Z.of_nat (length bl.2)), "Remove Delta_" +:+ bl.1)].

Definition expected_moves (gs : list (string * list Z)) : list (move * string) :=
  concat (imap move_pair gs).

(** The two measurements of block [bl], under their names. *)
Definition g_measure (b : nat) (bl : string * list Z) : measure * string :=
  (measure_g b, "G measure (" +:+ bl.1 +:+ ")").

Definition hist_measure (b : nat) (bl : string * list Z) : measure * string :=
  (measure_perturbation_hist b ("histo_pert_order_" +:+ bl.1 +:+ ".dat"),
   "Perturbation order (" +:+ bl.1 +:+ ")").

Definition expected_measures (g p : bool) (gs : list (string * list Z))
    : list (measure * string) :=
  ((if g then imap g_measure gs else []) ++ (if p then imap hist_measure gs else []))%list.

(** More solvers on the symbolic instance: one whose blocks have the sizes
    of [two_blocks] under other indices, and one without blocks. *)
Module MoreSymbolic.
Import Symbolic.

Definition other_indices : list (string * list Z) := [("down", [4; 9]); ("up", [7])].

Definition solver_of (gs : list (string * list Z)) (n_iw n_tau : Z) : ctqmc :=
  match ctqmc_ctor 10 gs n_iw n_tau with
  | Ret s => s
  | Raise _ => Ctqmc 10 [] (Block_gf [] []) (Block_gf [] []) (Block_gf [] []) None
  end.

Definition other_solver : ctqmc := solver_of other_indices 3 7.

Definition empty_solver : ctqmc := solver_of [] 3 7.

Definition g_only_params : gmap string pvalue :=
  <["measure_g_tau" := V_bool true]>
    (<["measure_pert_order" := V_bool false]> (<["max_time" := V_int 60]> ∅)).

End MoreSymbolic.

(** ** An exact instance of the library, for scalar Green's functions

    The numbers of a Green's function on Matsubara frequencies are kept as
    the function of [iw] they sample, computed with exactly: [a*iw + b] with
    integer coefficients, inverses, and sums, differences and products left
    as they are where no affine form exists. The tail is the exact one for
    the functions [a*iw + b] and [1/(iw + b)], the only ones the example
    below meets, and zero elsewhere. Operators are texts, as in [Symbolic]. *)

Module Exact.

Inductive fdata : Type :=
  | Aff (a b : Z)
  | Inv (x : fdata)
  | Sum (x y : fdata)
  | Diff (x y : fdata)
  | Prod (x y : fdata).

Definition f_inverse (x : fdata) : fdata :=
  match x with
  | Inv y => y
  | _ => Inv x
  end.

Definition f_add (x y : fdata) : fdata :=
  match x, y with
  | Aff a b, Aff c d => Aff (a + c) (b + d)
  | _, _ => Sum x y
  end.

Definition f_sub (x y : fdata) : fdata :=
  match x, y with
  | Aff a b, Aff c d => Aff (a - c) (b - d)
  | _, _ => Diff x y
  end.

Definition f_mul (x y : fdata) : fdata :=
  match x, y with
  | Aff Z0 c, Aff a b => Aff (c * a) (c * b)
  | Aff a b, Aff Z0 c => Aff (a * c) (b * c)
  | _, _ => Prod x y
  end.

(** The coefficient of [(iw)^(-k)] in the expansion at high frequency. *)
Definition f_tail (x : fdata) (k : Z) : Z :=
  match x with
  | Aff a b => if Z.eqb k (-1) then a else if Z.eqb k 0 then b else 0
  | Inv (Aff 1 b) => if Z.leb 1 k then (- b) ^ (k - 1) else 0
  | _ => 0
  end.

Fixpoint f_eval (e : clef_expr Z) : fdata :=
  match e with
  | Iw_ => Aff 1 0
  | Const c => Aff 0 c
  | Mul a b => f_mul (f_eval a) (f_eval b)
  | Add a b => f_add (f_eval a) (f_eval b)
  end.

Definition triqs : Triqs := {|
  freq_data := fdata;
  time_data := fdata;
  tail_matrix := Z;
  freq_zero := λ _ _, Aff 0 0;
  time_zero := λ _ _, Aff 0 0;
  inverse := λ g, Gf (mesh g) (target_shape g) (f_inverse (data g));
  gf_sub := λ g h, Gf (mesh g) (target_shape g) (f_sub (data g) (data h));
  singularity := λ g k, f_tail (data g) k;
  real_part_at := λ m _ _, inject_Z m;
  clef_eval := λ e _ _, f_eval e;
  inverse_fourier := λ g _ _, data g;
  real_operator_t := string;
  op_add := λ a b, Symbolic.paren "add" (a +:+ "," +:+ b);
  op_mul := λ a b, Symbolic.paren "mul" (a +:+ "," +:+ b);
  op_scale := λ q a, Symbolic.paren "scale" (pretty (Qnum q) +:+ "," +:+ a);
  c_dag := λ bl a, Symbolic.paren "c_dag" (bl +:+ "," +:+ pretty a);
  c := λ bl a, Symbolic.paren "c" (bl +:+ "," +:+ pretty a);
  fundamental_operator_set := list (string * Z);
  fops_empty := [];
  fops_insert := λ f bl a, (f ++ [(bl, a)])%list;
  fops_index := λ f bl a, Z.of_nat (length f) - 1;
  sorted_spaces := string;
  sosp_of_hamiltonian := λ h _, Symbolic.paren "sosp" h;
  sosp_of_quantum_numbers := λ h _ _, Symbolic.paren "sosp_qn" h;
|}.

Definition sampler : @Sampler triqs := {|
  world := unit;
  mc_run := λ _ _ _ _ _ g, g;
|}.

(** One block of one orbital; the caller stores the Weiss field
    [1/(iw + 3)] in it. *)
Definition one_block : list (string * list Z) := [("up", [0])].

Definition constructed_solver : @ctqmc triqs :=
  match ctqmc_ctor (T:=triqs) 10 one_block 3 7 with
  | Ret s => s
  | Raise _ => @Ctqmc triqs 10 [] (Block_gf [] []) (Block_gf [] []) (Block_gf [] []) None
  end.



End Exact.

(** * Properties *)

#[local] Open Scope list_scope.
#[local] Open Scope Z_scope.

(** ** Machine integers *)

Lemma wrap_int_in_range (z : Z) : Int.in_range (Int.wrap_int z).
Proof.
  unfold Int.in_range, Int.wrap_int, Int.min_int, Int.max_int, Int.half_modulus, Int.modulus.
  pose proof (Z.mod_pos_bound (z + 2 ^ 31) (2 ^ 32) ltac:(lia)). lia.
Qed.

Lemma wrap_int_id (z : Z) : Int.in_range z → Int.wrap_int z = z.
Proof.
  unfold Int.in_range, Int.wrap_int, Int.min_int, Int.max_int, Int.half_modulus, Int.modulus.
  intros Hz. rewrite Z.mod_small by lia. lia.
Qed.

(** The representative differs from the integer by a multiple of [2^32]. *)
Lemma wrap_int_spec (z : Z) : ∃ k, Int.wrap_int z = z + k * Int.modulus.
Proof.
  exists (- ((z + Int.half_modulus) / Int.modulus)).
  unfold Int.wrap_int. rewrite Z.mod_eq by (unfold Int.modulus; lia). lia.
Qed.

Lemma wrap_int_add_r (a b : Z) : Int.wrap_int (a + Int.wrap_int b) = Int.wrap_int (a + b).
Proof.
  destruct (wrap_int_spec b) as [k Hk]. rewrite Hk.
  unfold Int.wrap_int. f_equal.
  replace (a + (b + k * Int.modulus) + Int.half_modulus)
    with (a + b + Int.half_modulus + k * Int.modulus) by lia.
  apply Z.mod_add. unfold Int.modulus. lia.
Qed.

Lemma wrap_int_eq_divide (x y : Z) :
  Int.wrap_int x = Int.wrap_int y → (Int.modulus | x - y).
Proof.
  intros Heq.
  destruct (wrap_int_spec x) as [k Hk]. destruct (wrap_int_spec y) as [l Hl].
  exists (l - k). lia.
Qed.

(** ** The default seed *)

Lemma default_seed_wrap (rank : Z) :
  default_seed rank = Int.wrap_int (34788 + 928374 * rank).
Proof. unfold default_seed, Int.add, Int.mul. apply wrap_int_add_r. Qed.

Lemma default_seed_exact (rank : Z) :
  0 <= rank <= 2313 → default_seed rank = 34788 + 928374 * rank.
Proof.
  intros Hr. rewrite default_seed_wrap. apply wrap_int_id.
  unfold Int.in_range, Int.min_int, Int.max_int, Int.half_modulus. lia.
Qed.

Lemma default_seed_inj (r1 r2 : Z) :
  0 <= r1 <= Int.max_int → 0 <= r2 <= Int.max_int →
  default_seed r1 = default_seed r2 → r1 = r2.
Proof.
  intros H1 H2. rewrite !default_seed_wrap. intros Heq.
  apply wrap_int_eq_divide in Heq.
  assert (Hd : (2 ^ 31 | 464187 * (r1 - r2))).
  { destruct Heq as [k Hk]. exists k. unfold Int.modulus in Hk. lia. }
  apply Z.gauss in Hd; [| reflexivity].
  destruct Hd as [k Hk].
  unfold Int.max_int, Int.half_modulus in *.
  assert (k = 0) by lia. lia.
Qed.

Lemma solve_parameters_random_seed (rank : Z) :
  default_of (solve_parameters rank) "random_seed"
  = Some (default_value (V_int (default_seed rank))).
Proof. reflexivity. Qed.

(** C10, as the claim words it, fails: at rank 2314 the default seed is not
    [34788 + 928374 * 2314], a number that no [int] holds. *)
Lemma default_seed_formula_fails :
  default_of (solve_parameters 2314) "random_seed"
  ≠ Some (default_value (V_int (34788 + 928374 * 2314))).
Proof.
  rewrite solve_parameters_random_seed. intros H.
  injection H as H. vm_compute in H. discriminate H.
Qed.

(** C10, amended: the default seed is [34788 + 928374 * rank] computed in
    [int] arithmetic, which is that very number for the ranks up to 2313; and
    on all the ranks an [int] can hold, two distinct ranks get two distinct
    default seeds. *)
Theorem default_seed_distinct (r1 r2 : Z) :
  0 <= r1 <= Int.max_int → 0 <= r2 <= Int.max_int → r1 ≠ r2 →
  default_of (solve_parameters r1) "random_seed" = Some (default_value (V_int (default_seed r1)))
  ∧ default_seed r1 = Int.wrap_int (34788 + 928374 * r1)
  ∧ (r1 <= 2313 → default_seed r1 = 34788 + 928374 * r1)
  ∧ default_seed r1 ≠ default_seed r2
  ∧ default_of (solve_parameters r1) "random_seed"
    ≠ default_of (solve_parameters r2) "random_seed".
Proof.
  intros H1 H2 Hne.
  assert (Hs : default_seed r1 ≠ default_seed r2).
  { intros Heq. apply Hne. by apply default_seed_inj. }
  split; [apply solve_parameters_random_seed |].
  split; [apply default_seed_wrap |].
  split; [intros; apply default_seed_exact; lia |].
  split; [exact Hs |].
  rewrite !solve_parameters_random_seed. intros Heq. apply Hs. congruence.
Qed.

Lemma default_seed_distinct_witness :
  default_seed 3 = 2819910 ∧ default_seed 4000 ≠ default_seed 3.
Proof.
  assert (Hm : 0 <= 3 <= Int.max_int ∧ 0 <= 4000 <= Int.max_int).
  { unfold Int.max_int, Int.half_modulus. lia. }
  destruct Hm as [H3 H4].
  split.
  - destruct (default_seed_distinct 3 4000 H3 H4 ltac:(lia)) as (_ & _ & He & _).
    rewrite He by lia. reflexivity.
  - destruct (default_seed_distinct 4000 3 H4 H3 ltac:(lia)) as (_ & _ & _ & Hd & _).
    exact Hd.
Defined.

(** ** The recognized options *)

Lemma solve_parameters_dom (rank : Z) :
  dom (solve_parameters rank) = documented_options ∪ undocumented_options.
Proof.
  unfold solve_parameters, add_field, documented_options, undocumented_options.
  rewrite !dom_insert_L, dom_empty_L. set_solver.
Qed.

(** C6, as the claim words it, fails: the parameter set recognizes
    [verbosity], which is none of the documented options. *)
Lemma solve_parameters_not_exactly_documented :
  "verbosity" ∈ dom (solve_parameters 0) ∧ ("verbosity" ∉ documented_options)
  ∧ dom (solve_parameters 0) ≠ documented_options.
Proof.
  assert (Hin : "verbosity" ∈ dom (solve_parameters 0)).
  { rewrite solve_parameters_dom. unfold undocumented_options. set_solver. }
  assert (Hout : "verbosity" ∉ documented_options).
  { unfold documented_options. rewrite !elem_of_union, !elem_of_singleton.
    intros H. repeat destruct H as [H | H]; discriminate H. }
  split; [exact Hin |]. split; [exact Hout |].
  intros Heq. apply Hout. rewrite <- Heq. exact Hin.
Qed.

(** C6, amended: the parameter set recognizes the documented options, with
    the documented defaults ([n_cycles] has none, the seed is the default
    seed of the rank), and besides them exactly three more: [random_name]
    (empty by default), [verbosity] (3 on rank 0, 0 elsewhere) and
    [make_histograms] (off by default). *)
Theorem solve_parameters_options (rank : Z) :
  dom (solve_parameters rank) = documented_options ∪ undocumented_options
  ∧ default_of (solve_parameters rank) "n_cycles" = Some (no_default T_int)
  ∧ default_of (solve_parameters rank) "length_cycle" = Some (default_value (V_int 50))
  ∧ default_of (solve_parameters rank) "n_warmup_cycles" = Some (default_value (V_int 5000))
  ∧ default_of (solve_parameters rank) "random_seed"
    = Some (default_value (V_int (default_seed rank)))
  ∧ default_of (solve_parameters rank) "max_time" = Some (default_value (V_int (-1)))
  ∧ default_of (solve_parameters rank) "measure_g_tau" = Some (default_value (V_bool true))
  ∧ default_of (solve_parameters rank) "measure_pert_order"
    = Some (default_value (V_bool false))
  ∧ default_of (solve_parameters rank) "use_trace_estimator"
    = Some (default_value (V_bool false))
  ∧ default_of (solve_parameters rank) "random_name"
    = Some (default_value (V_string EmptyString))
  ∧ default_of (solve_parameters rank) "verbosity"
    = Some (default_value (V_int (if Z.eqb rank 0 then 3 else 0)))
  ∧ default_of (solve_parameters rank) "make_histograms"
    = Some (default_value (V_bool false)).
Proof.
  split; [apply solve_parameters_dom |].
  repeat split; try reflexivity.
  unfold default_of, solve_parameters, add_field. simplify_map_eq.
  by destruct (Z.eqb rank 0).
Qed.

(** ** Loops *)

Lemma obind_ret {A B : Type} (a : A) (k : A → outcome B) : obind (Ret a) k = k a.
Proof. reflexivity. Qed.

Lemma foldM_cons {A B : Type} (f : A → B → outcome A) (x : B) (l : list B) (a : A) :
  foldM f (x :: l) a = obind (f a x) (λ a', foldM f l a').
Proof. reflexivity. Qed.

Lemma foldM_nil {A B : Type} (f : A → B → outcome A) (a : A) : foldM f [] a = Ret a.
Proof. reflexivity. Qed.

Lemma at_index_middle {A : Type} (pre post : list A) (x : A) (i : nat) :
  i = length pre → at_index (pre ++ x :: post) i = Ret x.
Proof. intros ->. unfold at_index. by rewrite list_lookup_middle. Qed.

Lemma at_index_lookup {A : Type} (l : list A) (i : nat) (x : A) :
  l !! i = Some x → at_index l i = Ret x.
Proof. unfold at_index. by intros ->. Qed.

Lemma insert_middle {A : Type} (pre post : list A) (x y : A) (i : nat) :
  i = length pre → <[i := y]> (pre ++ x :: post) = pre ++ y :: post.
Proof. intros ->. rewrite insert_app_r_alt by lia. by rewrite Nat.sub_diag. Qed.

Lemma count_if_app {A : Type} (p : A → bool) (l1 l2 : list A) :
  count_if p (l1 ++ l2) = (count_if p l1 + count_if p l2)%nat.
Proof. induction l1 as [| x l1 IH]; simpl; [done |]. rewrite IH. lia. Qed.

Lemma fold_left_op_app {A : Type} (f : A → A → A) (l1 l2 : list A) (a : A) :
  fold_left f (l1 ++ l2) a = fold_left f l2 (fold_left f l1 a).
Proof. apply fold_left_app. Qed.

Section Properties.
Context `{T : Triqs} `{MC : !Sampler}.

(** ** The constructor *)

Lemma ctor_push_fold (beta_ : Q) (n_iw n_tau : Z) (gs : list (string * list Z))
    (v : ctor_vectors) :
  fold_left (ctor_push beta_ n_iw n_tau) gs v
  = Ctor_vectors
      (block_names v ++ map fst gs)
      (g0_iw_blocks v
         ++ map (λ bl, new_gf_imfreq (Imfreq beta_ Fermion n_iw) (block_shape bl)) gs)
      (g_tau_blocks v
         ++ map (λ bl, new_gf_imtime (Imtime beta_ Fermion n_tau half_bins) (block_shape bl)) gs)
      (delta_tau_blocks v
         ++ map (λ bl, new_gf_imtime (Imtime beta_ Fermion n_tau half_bins) (block_shape bl)) gs).
Proof.
  revert v. induction gs as [| bl gs IH]; intros v; simpl.
  - destruct v. by rewrite !app_nil_r.
  - rewrite IH. simpl. by rewrite <- !app_assoc.
Qed.

Lemma ctor_outcome (beta_ : Q) (gs : list (string * list Z)) (n_iw n_tau : Z) :
  ctqmc_ctor beta_ gs n_iw n_tau
  = if ctor_rejects n_iw n_tau then Raise (Runtime_error (too_few_tau_points n_iw n_tau))
    else Ret (Ctqmc beta_ gs
      (Block_gf (map fst gs)
         (map (λ bl, new_gf_imfreq (Imfreq beta_ Fermion n_iw) (block_shape bl)) gs))
      (Block_gf (map fst gs)
         (map (λ bl, new_gf_imtime (Imtime beta_ Fermion n_tau half_bins) (block_shape bl)) gs))
      (Block_gf (map fst gs)
         (map (λ bl, new_gf_imtime (Imtime beta_ Fermion n_tau half_bins) (block_shape bl)) gs))
      None).
Proof.
  unfold ctqmc_ctor, ctor_rejects. destruct (Z.leb n_tau (Int.mul 2 n_iw)); [done |].
  by rewrite ctor_push_fold.
Qed.

(** Without overflow in [2*n_iw], the constructor throws exactly when
    [n_tau <= 2*n_iw]. *)
Lemma ctor_rejects_iff (n_iw n_tau : Z) :
  Int.in_range (2 * n_iw) → ctor_rejects n_iw n_tau = true ↔ n_tau <= 2 * n_iw.
Proof.
  intros Hr. unfold ctor_rejects, Int.mul. rewrite wrap_int_id by done. apply Z.leb_le.
Qed.

Lemma ctor_well_formed (beta_ : Q) (gs : list (string * list Z)) (n_iw n_tau : Z)
    (st : ctqmc) :
  ctqmc_ctor beta_ gs n_iw n_tau = Ret st → gf_struct st = gs ∧ well_formed st.
Proof.
  rewrite ctor_outcome. destruct (ctor_rejects n_iw n_tau); [done |].
  intros [= <-]. unfold well_formed. simpl.
  rewrite !map_map. simpl. done.
Qed.

(** C1: with exactly twice as many imaginary-time points as Matsubara
    frequencies (50 and 100), a set-up the specification accepts, the
    constructor throws, whatever the temperature and the block structure. *)
Theorem ctor_throws_at_twice (beta_ : Q) (gs : list (string * list Z)) :
  spec_rejects 50 100 = false
  ∧ ctqmc_ctor beta_ gs 50 100 = Raise (Runtime_error (too_few_tau_points 50 100)).
Proof. split; [reflexivity |]. by rewrite ctor_outcome. Qed.

(** ** The quadratic terms *)

Lemma quadratic_inner_fold (G0 : block_gf gf_imfreq) (b : nat) (g : gf_imfreq)
    (bl : string) (a1 : Z) (ids : list Z) (h : real_operator_t) :
  block_at G0 b = Ret g →
  foldM (quadratic_inner G0 b bl a1) ids h
  = Ret (fold_left op_add (map (quadratic_term g bl a1) ids) h).
Proof.
  intros Hg. revert h. induction ids as [| a2 ids IH]; intros h; simpl; [done |].
  unfold quadratic_inner at 1. rewrite Hg. simpl. apply IH.
Qed.

Lemma quadratic_middle_fold (G0 : block_gf gf_imfreq) (b : nat) (g : gf_imfreq)
    (bl : string * list Z) (ids : list Z) (h : real_operator_t) :
  block_at G0 b = Ret g →
  foldM (quadratic_middle G0 b bl) ids h
  = Ret (fold_left op_add
           (flat_map (λ a1, map (λ a2, quadratic_term g bl.1 a1 a2) bl.2) ids) h).
Proof.
  intros Hg. revert h. induction ids as [| a1 ids IH]; intros h; simpl; [done |].
  unfold quadratic_middle at 1. rewrite (quadratic_inner_fold _ _ g) by done.
  simpl. rewrite IH. by rewrite fold_left_op_app.
Qed.

Lemma quadratic_outer_step (G0 : block_gf gf_imfreq) (b : nat) (g : gf_imfreq)
    (bl : string * list Z) (h : real_operator_t) :
  block_at G0 b = Ret g →
  quadratic_outer G0 (h, b) bl = Ret (fold_left op_add (block_terms g bl) h, S b).
Proof.
  intros Hg. unfold quadratic_outer. by rewrite (quadratic_middle_fold _ _ g).
Qed.

Lemma quadratic_outer_fold (nm : list string) (gs : list (string * list Z)) :
  ∀ (pre g0s : list gf_imfreq) (h : real_operator_t),
    length g0s = length gs →
    foldM (quadratic_outer (Block_gf nm (pre ++ g0s))) gs (h, length pre)
    = Ret (fold_left op_add (all_quadratic_terms g0s gs) h, (length pre + length gs)%nat).
Proof.
  induction gs as [| bl gs IH]; intros pre g0s h Hlen.
  - destruct g0s; [| done]. unfold all_quadratic_terms. simpl.
    by rewrite Nat.add_0_r.
  - destruct g0s as [| g g0s]; [done |]. simpl in Hlen.
    rewrite foldM_cons, (quadratic_outer_step _ _ g), obind_ret.
    2:{ unfold block_at. simpl. by apply at_index_middle. }
    replace (pre ++ g :: g0s) with ((pre ++ [g]) ++ g0s) by (by rewrite <- app_assoc).
    replace (S (length pre)) with (length (pre ++ [g]))
      by (rewrite length_app; simpl; lia).
    rewrite IH by lia.
    unfold all_quadratic_terms. simpl. rewrite fold_left_op_app.
    do 2 f_equal. rewrite length_app. simpl. lia.
Qed.

Lemma add_quadratic_terms_ret (G0 : block_gf gf_imfreq) (gs : list (string * list Z))
    (h : real_operator_t) :
  length (blocks G0) = length gs →
  add_quadratic_terms G0 gs h = Ret (fold_left op_add (all_quadratic_terms (blocks G0) gs) h).
Proof.
  intros Hlen. unfold add_quadratic_terms. destruct G0 as [nm g0s]. simpl in *.
  pose proof (quadratic_outer_fold nm gs [] g0s h Hlen) as H. simpl in H.
  by rewrite H.
Qed.

(** ** The hybridization function *)

Lemma hyb_body_middle (nm0 nm1 nm2 nm3 : list string) (bl : string * list Z)
    (pre_i post_i pre_d post_d pre_g post_g : list gf_imfreq)
    (pre_t post_t : list gf_imtime) (g0 : gf_imfreq) (dt : gf_imtime) :
  length pre_i = length pre_g → length pre_d = length pre_g → length pre_t = length pre_g →
  hyb_body (Block_gf nm0 (pre_i ++ inverse g0 :: post_i))
    (Hyb_state (Block_gf nm1 (pre_d ++ inverse g0 :: post_d))
               (Block_gf nm2 (pre_t ++ dt :: post_t))
               (Block_gf nm3 (pre_g ++ g0 :: post_g)), length pre_g) bl
  = Ret (Hyb_state (Block_gf nm1 (pre_d ++ delta_iw_of g0 :: post_d))
                   (Block_gf nm2 (pre_t ++ delta_tau_of g0 dt :: post_t))
                   (Block_gf nm3 (pre_g ++ weiss_field_after g0 :: post_g)),
         S (length pre_g)).
Proof.
  intros Hi Hd Ht. unfold hyb_body, block_at, set_block. simpl.
  repeat (rewrite ?insert_middle, ?at_index_middle by congruence; simpl).
  reflexivity.
Qed.

Lemma hyb_loop (nm0 nm1 nm2 nm3 : list string) (gs : list (string * list Z)) :
  ∀ (pre_i pre_d pre_g g0s : list gf_imfreq) (pre_t dts : list gf_imtime),
    length g0s = length gs → length dts = length gs →
    length pre_i = length pre_g → length pre_d = length pre_g →
    length pre_t = length pre_g →
    foldM (hyb_body (Block_gf nm0 (pre_i ++ map inverse g0s))) gs
      (Hyb_state (Block_gf nm1 (pre_d ++ map inverse g0s))
                 (Block_gf nm2 (pre_t ++ dts))
                 (Block_gf nm3 (pre_g ++ g0s)), length pre_g)
    = Ret (Hyb_state (Block_gf nm1 (pre_d ++ map delta_iw_of g0s))
                     (Block_gf nm2 (pre_t ++ zip_with delta_tau_of g0s dts))
                     (Block_gf nm3 (pre_g ++ map weiss_field_after g0s)),
           (length pre_g + length gs)%nat).
Proof.
  induction gs as [| bl gs IH]; intros pre_i pre_d pre_g g0s pre_t dts Hg Ht Hi Hd Hpt.
  - destruct g0s; [| done]. destruct dts; [| done]. simpl. by rewrite Nat.add_0_r.
  - destruct g0s as [| g0 g0s]; [done |]. destruct dts as [| dt dts]; [done |].
    simpl in Hg, Ht. rewrite foldM_cons. simpl map.
    rewrite hyb_body_middle by done. rewrite obind_ret.
    replace (S (length pre_g)) with (length (pre_g ++ [weiss_field_after g0]))
      by (rewrite length_app; simpl; lia).
    rewrite (cons_middle (inverse g0) pre_i), (cons_middle (delta_iw_of g0) pre_d),
      (cons_middle (delta_tau_of g0 dt) pre_t), (cons_middle (weiss_field_after g0) pre_g).
    rewrite !app_assoc.
    (* the blocks still to come are read as they were on entry *)
    pose proof (IH (pre_i ++ [inverse g0]) (pre_d ++ [delta_iw_of g0])
                  (pre_g ++ [weiss_field_after g0]) g0s
                  (pre_t ++ [delta_tau_of g0 dt]) dts) as IH'.
    rewrite IH' by (rewrite ?length_app; simpl; lia).
    simpl zip_with. rewrite length_app. simpl.
    rewrite <- !app_assoc. simpl. do 2 f_equal. lia.
Qed.

Lemma hybridization_ret (gs : list (string * list Z)) (G0 : block_gf gf_imfreq)
    (Dt : block_gf gf_imtime) :
  length (blocks G0) = length gs → length (blocks Dt) = length gs →
  hybridization gs (make_block_gf_unnamed (map inverse (blocks G0)))
    (Hyb_state (make_block_gf_unnamed (map inverse (blocks G0))) Dt G0)
  = Ret (Hyb_state
           (Block_gf (names (make_block_gf_unnamed (map inverse (blocks G0))))
                     (map delta_iw_of (blocks G0)))
           (Block_gf (names Dt) (zip_with delta_tau_of (blocks G0) (blocks Dt)))
           (Block_gf (names G0) (map weiss_field_after (blocks G0)))).
Proof.
  intros Hg Ht. unfold hybridization. destruct G0 as [n3 g0s], Dt as [n2 dts]. simpl in *.
  unfold make_block_gf_unnamed.
  pose proof (hyb_loop (map (λ i : nat, pretty i) (seq 0 (length (map inverse g0s))))
                (map (λ i : nat, pretty i) (seq 0 (length (map inverse g0s)))) n2 n3 gs
                [] [] [] g0s [] dts Hg Ht eq_refl eq_refl eq_refl) as H.
  simpl in H. by rewrite H.
Qed.

(** ** Moves and measurements *)

Lemma in_span_step (k n b : nat) :
  in_span k (S n) b = ((if Nat.eqb b k then 1 else 0) + in_span (S k) n b)%nat.
Proof.
  unfold in_span. destruct (Nat.eqb_spec b k) as [-> | Hne]; repeat case_bool_decide; lia.
Qed.

Lemma in_span_0 (k b : nat) : in_span k 0 b = 0%nat.
Proof. unfold in_span. case_bool_decide; lia. Qed.

Lemma in_span_all (n b : nat) : (b < n)%nat → in_span 0 n b = 1%nat.
Proof. intros Hb. unfold in_span. case_bool_decide; lia. Qed.

Lemma in_span_none (n b : nat) : (n ≤ b)%nat → in_span 0 n b = 0%nat.
Proof. intros Hb. unfold in_span. case_bool_decide; lia. Qed.

Lemma register_moves_body_ret (delta : block_gf gf_imtime) (qmc : mc_generic) (k : nat)
    (name : string) (dt : gf_imtime) :
  names delta !! k = Some name → blocks delta !! k = Some dt →
  register_moves_body delta qmc k
  = Ret (add_move (move_remove_c_cdag k (target_shape dt).1) ("Remove Delta_" +:+ name)
           (add_move (move_insert_c_cdag k (target_shape dt).1 false)
              ("Insert Delta_" +:+ name) qmc)).
Proof.
  intros Hn Hd. unfold register_moves_body, block_at.
  by rewrite (at_index_lookup _ _ _ Hn), (at_index_lookup _ _ _ Hd).
Qed.

Lemma register_moves_span (delta : block_gf gf_imtime) (n : nat) :
  ∀ (k : nat) (qmc : mc_generic),
    (k + n ≤ length (names delta))%nat → (k + n ≤ length (blocks delta))%nat →
    ∃ qmc', foldM (register_moves_body delta) (seq k n) qmc = Ret qmc'
      ∧ mc_params qmc' = mc_params qmc
      ∧ mc_measures qmc' = mc_measures qmc
      ∧ (∀ b, count_if (is_insert_for b) (mc_moves qmc')
              = (count_if (is_insert_for b) (mc_moves qmc) + in_span k n b)%nat
            ∧ count_if (is_remove_for b) (mc_moves qmc')
              = (count_if (is_remove_for b) (mc_moves qmc) + in_span k n b)%nat)
      ∧ (∀ m, m ∈ mc_moves qmc → m ∈ mc_moves qmc')
      ∧ (∀ b name dt, (k ≤ b < k + n)%nat →
           names delta !! b = Some name → blocks delta !! b = Some dt →
           (move_insert_c_cdag b (target_shape dt).1 false, "Insert Delta_" +:+ name)
             ∈ mc_moves qmc'
           ∧ (move_remove_c_cdag b (target_shape dt).1, "Remove Delta_" +:+ name)
             ∈ mc_moves qmc').
Proof.
  induction n as [| n IH]; intros k qmc Hn Hb.
  - exists qmc. simpl. repeat split; try done.
    + rewrite in_span_0. lia.
    + rewrite in_span_0. lia.
    + lia.
    + lia.
  - destruct (lookup_lt_is_Some_2 (names delta) k ltac:(lia)) as [name Hname].
    destruct (lookup_lt_is_Some_2 (blocks delta) k ltac:(lia)) as [dt Hdt].
    simpl seq. rewrite foldM_cons, (register_moves_body_ret _ _ _ name dt) by done.
    rewrite obind_ret.
    destruct (IH (S k)
                (add_move (move_remove_c_cdag k (target_shape dt).1) ("Remove Delta_" +:+ name)
                   (add_move (move_insert_c_cdag k (target_shape dt).1 false)
                      ("Insert Delta_" +:+ name) qmc)))
      as (qmc' & Hrun & Hp & Hm & Hcount & Hkeep & Hnew); [lia | lia |].
    exists qmc'. split; [exact Hrun |]. split; [by rewrite Hp |]. split; [by rewrite Hm |].
    split; [| split].
    + intros b. destruct (Hcount b) as [Hi Hr]. rewrite Hi, Hr, in_span_step.
      simpl. rewrite !count_if_app. simpl. unfold is_insert_for, is_remove_for. simpl.
      destruct (Nat.eqb b k); lia.
    + intros m Hin. apply Hkeep. simpl. rewrite !elem_of_app. auto.
    + intros b name' dt' Hspan Hname' Hdt'.
      destruct (decide (b = k)) as [-> | Hne].
      * rewrite Hname in Hname'. rewrite Hdt in Hdt'.
        injection Hname' as <-. injection Hdt' as <-.
        split; apply Hkeep; simpl; rewrite !elem_of_app, !list_elem_of_singleton; auto.
      * apply Hnew; [lia | done | done].
Qed.

Lemma measure_g_span (g_tau : block_gf gf_imtime) (n : nat) :
  ∀ (k : nat) (qmc : mc_generic),
    (k + n ≤ length (names g_tau))%nat → (k + n ≤ length (blocks g_tau))%nat →
    ∃ qmc', foldM (measure_g_body g_tau) (seq k n) qmc = Ret qmc'
      ∧ mc_params qmc' = mc_params qmc
      ∧ mc_moves qmc' = mc_moves qmc
      ∧ ∀ b, count_if (is_measure_g_for b) (mc_measures qmc')
             = (count_if (is_measure_g_for b) (mc_measures qmc) + in_span k n b)%nat
           ∧ count_if (is_measure_hist_for b) (mc_measures qmc')
             = count_if (is_measure_hist_for b) (mc_measures qmc).
Proof.
  induction n as [| n IH]; intros k qmc Hn Hb.
  - exists qmc. simpl. repeat split; try done. rewrite in_span_0. lia.
  - destruct (lookup_lt_is_Some_2 (names g_tau) k ltac:(lia)) as [name Hname].
    destruct (lookup_lt_is_Some_2 (blocks g_tau) k ltac:(lia)) as [g Hg].
    simpl seq. rewrite foldM_cons. unfold measure_g_body at 1, block_at.
    rewrite (at_index_lookup _ _ _ Hname), (at_index_lookup _ _ _ Hg), !obind_ret.
    destruct (IH (S k) (add_measure (measure_g k) ("G measure (" +:+ name +:+ ")") qmc))
      as (qmc' & Hrun & Hp & Hm & Hcount); [lia | lia |].
    exists qmc'. split; [exact Hrun |]. split; [by rewrite Hp |]. split; [by rewrite Hm |].
    intros b. destruct (Hcount b) as [Hi Hr]. rewrite Hi, Hr, in_span_step.
    simpl. rewrite !count_if_app. simpl. unfold is_measure_g_for, is_measure_hist_for. simpl.
    destruct (Nat.eqb b k); lia.
Qed.

Lemma measure_hist_span (g_tau : block_gf gf_imtime) (n : nat) :
  ∀ (k : nat) (qmc : mc_generic),
    (k + n ≤ length (names g_tau))%nat →
    ∃ qmc', foldM (measure_hist_body g_tau) (seq k n) qmc = Ret qmc'
      ∧ mc_params qmc' = mc_params qmc
      ∧ mc_moves qmc' = mc_moves qmc
      ∧ ∀ b, count_if (is_measure_g_for b) (mc_measures qmc')
             = count_if (is_measure_g_for b) (mc_measures qmc)
           ∧ count_if (is_measure_hist_for b) (mc_measures qmc')
             = (count_if (is_measure_hist_for b) (mc_measures qmc) + in_span k n b)%nat.
Proof.
  induction n as [| n IH]; intros k qmc Hn.
  - exists qmc. simpl. repeat split; try done. rewrite in_span_0. lia.
  - destruct (lookup_lt_is_Some_2 (names g_tau) k ltac:(lia)) as [name Hname].
    simpl seq. rewrite foldM_cons. unfold measure_hist_body at 1.
    rewrite (at_index_lookup _ _ _ Hname), !obind_ret.
    destruct (IH (S k)
                (add_measure
                   (measure_perturbation_hist k ("histo_pert_order_" +:+ name +:+ ".dat"))
                   ("Perturbation order (" +:+ name +:+ ")") qmc))
      as (qmc' & Hrun & Hp & Hm & Hcount); [lia |].
    exists qmc'. split; [exact Hrun |]. split; [by rewrite Hp |]. split; [by rewrite Hm |].
    intros b. destruct (Hcount b) as [Hi Hr]. rewrite Hi, Hr, in_span_step.
    simpl. rewrite !count_if_app. simpl. unfold is_measure_g_for, is_measure_hist_for. simpl.
    destruct (Nat.eqb b k); lia.
Qed.

Lemma register_measures_ret (params : gmap string pvalue) (g p : bool) (t : Z)
    (g_tau : block_gf gf_imtime) (qmc : mc_generic) :
  reads_options params g p t →
  length (blocks g_tau) = length (names g_tau) →
  ∃ qmc', register_measures params g_tau qmc = Ret qmc'
    ∧ mc_params qmc' = mc_params qmc
    ∧ mc_moves qmc' = mc_moves qmc
    ∧ ∀ b, count_if (is_measure_g_for b) (mc_measures qmc')
           = (count_if (is_measure_g_for b) (mc_measures qmc)
              + if g then in_span 0 (domain_size g_tau) b else 0)%nat
         ∧ count_if (is_measure_hist_for b) (mc_measures qmc')
           = (count_if (is_measure_hist_for b) (mc_measures qmc)
              + if p then in_span 0 (domain_size g_tau) b else 0)%nat.
Proof.
  intros (Hg & Hp & _) Hlen. unfold register_measures, param_bool. rewrite Hg, Hp.
  rewrite !obind_ret. unfold domain_size.
  assert (∃ q1, (if g then foldM (measure_g_body g_tau) (seq 0 (length (names g_tau))) qmc
                 else Ret qmc) = Ret q1
            ∧ mc_params q1 = mc_params qmc ∧ mc_moves q1 = mc_moves qmc
            ∧ ∀ b, count_if (is_measure_g_for b) (mc_measures q1)
                   = (count_if (is_measure_g_for b) (mc_measures qmc)
                      + if g then in_span 0 (length (names g_tau)) b else 0)%nat
                 ∧ count_if (is_measure_hist_for b) (mc_measures q1)
                   = count_if (is_measure_hist_for b) (mc_measures qmc))
    as (q1 & Hq1 & Hp1 & Hm1 & Hc1).
  { destruct g.
    - apply measure_g_span; simpl; lia.
    - exists qmc. repeat split; try done; lia. }
  rewrite Hq1, obind_ret.
  assert (∃ q2, (if p then foldM (measure_hist_body g_tau) (seq 0 (length (names g_tau))) q1
                 else Ret q1) = Ret q2
            ∧ mc_params q2 = mc_params q1 ∧ mc_moves q2 = mc_moves q1
            ∧ ∀ b, count_if (is_measure_g_for b) (mc_measures q2)
                   = count_if (is_measure_g_for b) (mc_measures q1)
                 ∧ count_if (is_measure_hist_for b) (mc_measures q2)
                   = (count_if (is_measure_hist_for b) (mc_measures q1)
                      + if p then in_span 0 (length (names g_tau)) b else 0)%nat)
    as (q2 & Hq2 & Hp2 & Hm2 & Hc2).
  { destruct p.
    - apply measure_hist_span; simpl; lia.
    - exists q1. repeat split; try done; lia. }
  exists q2. split; [exact Hq2 |]. split; [congruence |]. split; [congruence |].
  intros b. destruct (Hc1 b) as [H1 H2]. destruct (Hc2 b) as [H3 H4].
  rewrite H3, H4, H1, H2. done.
Qed.

(** ** [solve] on a well-formed solver *)

Lemma same_map_length {A B C : Type} (f : A → C) (g : B → C) (l : list A) (l' : list B) :
  map f l = map g l' → length l = length l'.
Proof. intros H. apply (f_equal length) in H. by rewrite !length_map in H. Qed.

Lemma same_map_lookup {A B C : Type} (f : A → C) (g : B → C) (l : list A) (l' : list B)
    (i : nat) (y : B) :
  map f l = map g l' → l' !! i = Some y → ∃ x, l !! i = Some x ∧ f x = g y.
Proof.
  intros H Hy. apply (f_equal (λ l, l !! i)) in H. rewrite !list_lookup_fmap, Hy in H.
  destruct (l !! i) as [x |]; [| done]. exists x. split; [done |]. by injection H.
Qed.

Lemma names_lookup (nm : list string) (gs : list (string * list Z)) (i : nat)
    (bl : string * list Z) :
  nm = map fst gs → gs !! i = Some bl → nm !! i = Some bl.1.
Proof. intros -> Hbl. by rewrite list_lookup_fmap, Hbl. Qed.

Lemma well_formed_lengths (self : ctqmc) :
  well_formed self →
  length (blocks (G0_iw self)) = length (gf_struct self)
  ∧ length (blocks (G_tau self)) = length (names (G_tau self))
  ∧ length (names (G_tau self)) = length (gf_struct self)
  ∧ length (blocks (Delta_tau self)) = length (gf_struct self)
  ∧ length (names (Delta_tau self)) = length (gf_struct self).
Proof.
  intros ((_ & H0) & (Hgn & Hg) & (Hdn & Hd)).
  apply same_map_length in H0, Hg, Hd.
  rewrite Hgn, Hdn, !length_map. repeat split; congruence.
Qed.

(** What [solve] returns on a well-formed solver whose parameters hold the
    three options it reads: every local variable and every member in closed
    form, but for the driver, which is described by its registrations. *)
Lemma solve_ret (w : world) (h : real_operator_t) (params : gmap string pvalue)
    (qn : list real_operator_t) (uq : bool) (self : ctqmc) (g p : bool) (t : Z) :
  well_formed self → reads_options params g p t →
  let gs := gf_struct self in
  let g0s := blocks (G0_iw self) in
  let h' := fold_left op_add (all_quadratic_terms g0s gs) h in
  let G0_iw_inv := make_block_gf_unnamed (map inverse g0s) in
  let Delta_iw := Block_gf (names G0_iw_inv) (map delta_iw_of g0s) in
  let Delta_tau' :=
    Block_gf (names (Delta_tau self)) (zip_with delta_tau_of g0s (blocks (Delta_tau self))) in
  let G0' := Block_gf (names (G0_iw self)) (map weiss_field_after g0s) in
  let bs := operator_basis gs in
  let sp := if uq then sosp_of_quantum_numbers h' qn (fops bs)
            else sosp_of_hamiltonian h' (fops bs) in
  let data_ := new_qmc_data (beta self) params sp (linindex bs) Delta_tau' in
  ∃ qmc,
    solve w h params qn uq self
    = Ret (Ctqmc (beta self) gs G0' (mc_run w qmc data_ 1%Q t (G_tau self)) Delta_tau' (Some sp),
           Solve_locals h' bs G0_iw_inv Delta_iw data_ qmc 1%Q t)
    ∧ mc_params qmc = params
    ∧ (∀ b, count_if (is_insert_for b) (mc_moves qmc) = in_span 0 (length gs) b
          ∧ count_if (is_remove_for b) (mc_moves qmc) = in_span 0 (length gs) b
          ∧ count_if (is_measure_g_for b) (mc_measures qmc)
            = (if g then in_span 0 (length gs) b else 0%nat)
          ∧ count_if (is_measure_hist_for b) (mc_measures qmc)
            = (if p then in_span 0 (length gs) b else 0%nat))
    ∧ (∀ b bl, gs !! b = Some bl →
         (move_insert_c_cdag b (Z.of_nat (length bl.2)) false, "Insert Delta_" +:+ bl.1)
           ∈ mc_moves qmc
         ∧ (move_remove_c_cdag b (Z.of_nat (length bl.2)), "Remove Delta_" +:+ bl.1)
           ∈ mc_moves qmc).
Proof.
  intros Hwf Hopt. intros gs g0s h' G0_iw_inv Delta_iw Delta_tau' G0' bs sp data_.
  destruct (well_formed_lengths self Hwf) as (Hl0 & Hlg & Hlgn & Hld & Hldn).
  destruct Hwf as (_ & _ & (Hdn & Hds)).
  assert (Hlen' : length (blocks Delta_tau') = length gs).
  { subst Delta_tau'. simpl. rewrite length_zip_with. subst g0s gs. lia. }
  destruct (register_moves_span Delta_tau' (length gs) 0 (Mc_generic params [] []))
    as (q1 & Hq1 & Hp1 & Hm1 & Hc1 & _ & Hin1).
  { subst Delta_tau' gs. simpl. lia. }
  { subst gs. lia. }
  destruct (register_measures_ret params g p t (G_tau self) q1 Hopt Hlg)
    as (q2 & Hq2 & Hp2 & Hm2 & Hc2).
  exists q2. split; [| split; [| split]].
  - clear Hc1 Hin1 Hc2.
    subst data_ sp bs G0' Delta_tau' Delta_iw G0_iw_inv h' g0s gs.
    unfold solve.
    rewrite add_quadratic_terms_ret by done. rewrite obind_ret.
    rewrite hybridization_ret by done. rewrite obind_ret. simpl hs_Delta_tau.
    unfold register_moves, domain_size. cbn [names]. rewrite Hldn.
    rewrite Hq1, obind_ret, Hq2, obind_ret.
    unfold param_int. destruct Hopt as (_ & _ & ->). rewrite obind_ret. reflexivity.
  - rewrite Hp2, Hp1. reflexivity.
  - intros b. destruct (Hc1 b) as [Hi Hr]. destruct (Hc2 b) as [Hg Hh].
    rewrite Hm2, Hi, Hr, Hg, Hh, Hm1. unfold domain_size. rewrite Hlgn. simpl.
    fold gs. done.
  - intros b bl Hbl. rewrite Hm2.
    pose proof (names_lookup _ _ _ _ Hdn Hbl) as Hname.
    destruct (same_map_lookup _ _ _ _ _ _ Hds Hbl) as (dt & Hdt & Hshape).
    destruct (lookup_lt_is_Some_2 g0s b) as [g0 Hg0].
    { apply lookup_lt_Some in Hbl. subst g0s gs. lia. }
    assert (Hdt' : blocks Delta_tau' !! b = Some (delta_tau_of g0 dt)).
    { subst Delta_tau'. simpl. rewrite lookup_zip_with, Hg0. simpl. by rewrite Hdt. }
    destruct (Hin1 b bl.1 (delta_tau_of g0 dt)) as [Hi Hr]; [| done | done |].
    { apply lookup_lt_Some in Hbl. lia. }
    simpl in Hi, Hr. rewrite Hshape in Hi, Hr. done.
Qed.

Lemma elem_of_block_terms (g : gf_imfreq) (bl : string * list Z) (term : real_operator_t) :
  term ∈ block_terms g bl
  ↔ ∃ a1 a2, a1 ∈ bl.2 ∧ a2 ∈ bl.2 ∧ term = quadratic_term g bl.1 a1 a2.
Proof.
  unfold block_terms. rewrite list_elem_of_In, in_flat_map. split.
  - intros (a1 & H1 & Hin). apply in_map_iff in Hin as (a2 & <- & H2).
    exists a1, a2. by rewrite !list_elem_of_In.
  - intros (a1 & a2 & H1 & H2 & ->). exists a1. rewrite <- list_elem_of_In.
    split; [done |]. apply in_map_iff. exists a2. by rewrite <- list_elem_of_In.
Qed.

Lemma elem_of_all_quadratic_terms (g0s : list gf_imfreq) (gs : list (string * list Z))
    (term : real_operator_t) :
  term ∈ all_quadratic_terms g0s gs
  ↔ ∃ b g0 bl a1 a2, g0s !! b = Some g0 ∧ gs !! b = Some bl ∧ a1 ∈ bl.2 ∧ a2 ∈ bl.2
      ∧ term = quadratic_term g0 bl.1 a1 a2.
Proof.
  unfold all_quadratic_terms. rewrite list_elem_of_In, in_concat. split.
  - intros (l & Hl & Hin). rewrite <- list_elem_of_In in Hl. rewrite <- list_elem_of_In in Hin.
    apply elem_of_lookup_zip_with in Hl as (b & g0 & bl & -> & Hg0 & Hbl).
    apply elem_of_block_terms in Hin as (a1 & a2 & H1 & H2 & ->).
    by exists b, g0, bl, a1, a2.
  - intros (b & g0 & bl & a1 & a2 & Hg0 & Hbl & H1 & H2 & ->).
    exists (block_terms g0 bl). rewrite <- !list_elem_of_In. split.
    + apply elem_of_lookup_zip_with. by exists b, g0, bl.
    + apply elem_of_block_terms. by exists a1, a2.
Qed.

(** ** The claims about [solve] *)

(** C2: on a well-formed solver, [solve] returns, and for every block [b],
    with [g0] the Weiss field the caller stored in [G0_iw[b]], the local
    [Delta_iw[b]] is [tail(-1)*iw + tail(0) - inverse(g0)], the tail being
    that of [inverse(g0)], and [Delta_tau[b]] holds the inverse Fourier
    transform of that [Delta_iw[b]], on its own mesh; this [Delta_tau] is the
    one handed to the sampler. *)
Theorem solve_hybridization (w : world) (h : real_operator_t) (params : gmap string pvalue)
    (qn : list real_operator_t) (uq : bool) (self : ctqmc) (g p : bool) (t : Z) :
  well_formed self → reads_options params g p t →
  ∃ self' loc,
    solve w h params qn uq self = Ret (self', loc)
    ∧ d_delta (l_data loc) = Delta_tau self'
    ∧ ∀ b bl, gf_struct self !! b = Some bl →
        ∃ g0 dt,
          blocks (G0_iw self) !! b = Some g0
          ∧ blocks (Delta_tau self) !! b = Some dt
          ∧ blocks (l_Delta_iw loc) !! b
            = Some (gf_sub (clef_assign (inverse g0)
                              (Add (Mul (Const (singularity (inverse g0) (-1))) Iw_)
                                   (Const (singularity (inverse g0) 0))))
                           (inverse g0))
          ∧ blocks (Delta_tau self') !! b
            = Some (view_assign dt
                      (inverse_fourier (delta_iw_of g0) (mesh dt) (target_shape dt))).
Proof.
  intros Hwf Hopt.
  destruct (solve_ret w h params qn uq self g p t Hwf Hopt) as (qmc & Hsolve & _).
  destruct (well_formed_lengths self Hwf) as (Hl0 & _ & _ & Hld & _).
  eexists _, _. split; [exact Hsolve |]. split; [reflexivity |].
  intros b bl Hbl. apply lookup_lt_Some in Hbl.
  destruct (lookup_lt_is_Some_2 (blocks (G0_iw self)) b ltac:(lia)) as [g0 Hg0].
  destruct (lookup_lt_is_Some_2 (blocks (Delta_tau self)) b ltac:(lia)) as [dt Hdt].
  exists g0, dt. split; [done |]. split; [done |]. simpl. split.
  - by rewrite list_lookup_fmap, Hg0.
  - by rewrite lookup_zip_with, Hg0; simpl; rewrite Hdt.
Qed.


(** C3: on a well-formed solver, [solve] returns; the Hamiltonian it builds
    the atomic state space from is the supplied [h_loc] plus, added one by
    one, the quadratic terms, and these are exactly the terms
    [Re(tail coefficient 2 of G0_iw[b] at (a1,a2)) * c_dag(bl,a1) * c(bl,a2)]
    for a block [bl], of position [b], and two indices [a1], [a2] of it. *)
Theorem solve_folds_quadratic_terms (w : world) (h : real_operator_t)
    (params : gmap string pvalue) (qn : list real_operator_t) (uq : bool) (self : ctqmc)
    (g p : bool) (t : Z) :
  well_formed self → reads_options params g p t →
  ∃ self' loc terms,
    solve w h params qn uq self = Ret (self', loc)
    ∧ l_h_loc loc = fold_left op_add terms h
    ∧ sosp self'
      = Some (if uq then sosp_of_quantum_numbers (l_h_loc loc) qn (fops (l_basis loc))
              else sosp_of_hamiltonian (l_h_loc loc) (fops (l_basis loc)))
    ∧ d_sosp (l_data loc)
      = (if uq then sosp_of_quantum_numbers (l_h_loc loc) qn (fops (l_basis loc))
         else sosp_of_hamiltonian (l_h_loc loc) (fops (l_basis loc)))
    ∧ (∀ term, term ∈ terms
         ↔ ∃ b g0 bl a1 a2,
             blocks (G0_iw self) !! b = Some g0 ∧ gf_struct self !! b = Some bl
             ∧ a1 ∈ bl.2 ∧ a2 ∈ bl.2
             ∧ term = op_mul (op_scale (real_part_at (singularity g0 2) a1 a2)
                                       (c_dag bl.1 a1))
                             (c bl.1 a2))
    ∧ terms = concat (zip_with block_terms (blocks (G0_iw self)) (gf_struct self)).
Proof.
  intros Hwf Hopt.
  destruct (solve_ret w h params qn uq self g p t Hwf Hopt) as (qmc & Hsolve & _).
  eexists _, _, (all_quadratic_terms (blocks (G0_iw self)) (gf_struct self)).
  split; [exact Hsolve |]. simpl.
  split; [reflexivity |]. split; [reflexivity |]. split; [reflexivity |].
  split; [| reflexivity].
  intros term. apply elem_of_all_quadratic_terms.
Qed.

(** C4: on a well-formed solver, [solve] returns, and the run it starts, the
    one that fills [G_tau], is started with sign 1 on data whose configuration
    is empty. *)
Theorem solve_starts_empty_with_sign_one (w : world) (h : real_operator_t)
    (params : gmap string pvalue) (qn : list real_operator_t) (uq : bool) (self : ctqmc)
    (g p : bool) (t : Z) :
  well_formed self → reads_options params g p t →
  ∃ self' loc,
    solve w h params qn uq self = Ret (self', loc)
    ∧ l_initial_sign loc = 1%Q
    ∧ d_config (l_data loc) = []
    ∧ G_tau self' = mc_run w (l_qmc loc) (l_data loc) 1%Q (l_max_time loc) (G_tau self).
Proof.
  intros Hwf Hopt.
  destruct (solve_ret w h params qn uq self g p t Hwf Hopt) as (qmc & Hsolve & _).
  eexists _, _. split; [exact Hsolve |]. done.
Qed.

(** C5: on a well-formed solver, [solve] returns, and the driver it runs
    holds, for every block, one Green's-function measurement when
    [measure_g_tau] is on and none when it is off, and one
    perturbation-order measurement when [measure_pert_order] is on and none
    when it is off; both kinds sit in the one driver [solve] builds and runs. *)
Theorem solve_registers_measures (w : world) (h : real_operator_t)
    (params : gmap string pvalue) (qn : list real_operator_t) (uq : bool) (self : ctqmc)
    (g p : bool) (t : Z) :
  well_formed self → reads_options params g p t →
  ∃ self' loc,
    solve w h params qn uq self = Ret (self', loc)
    ∧ G_tau self' = mc_run w (l_qmc loc) (l_data loc) 1%Q (l_max_time loc) (G_tau self)
    ∧ ∀ b bl, gf_struct self !! b = Some bl →
        count_if (is_measure_g_for b) (mc_measures (l_qmc loc)) = (if g then 1 else 0)%nat
        ∧ count_if (is_measure_hist_for b) (mc_measures (l_qmc loc)) = (if p then 1 else 0)%nat
        ∧ (count_if (is_measure_g_for b) (mc_measures (l_qmc loc)) = 1%nat ↔ g = true)
        ∧ (count_if (is_measure_hist_for b) (mc_measures (l_qmc loc)) = 1%nat ↔ p = true).
Proof.
  intros Hwf Hopt.
  destruct (solve_ret w h params qn uq self g p t Hwf Hopt) as (qmc & Hsolve & _ & Hcount & _).
  eexists _, _. split; [exact Hsolve |]. split; [reflexivity |].
  intros b bl Hbl. apply lookup_lt_Some in Hbl. simpl.
  destruct (Hcount b) as (_ & _ & Hg & Hp). rewrite Hg, Hp, in_span_all by done.
  repeat split; try done; destruct g, p; done.
Qed.

(** C7: a constructor that succeeds leaves [G0_iw], [G_tau] and [Delta_tau]
    with the names of [gf_struct], in its order, and one block per entry; the
    block of an entry of n indices has shape n by n, and its mesh is the
    fermionic mesh at [beta] with [n_iw] Matsubara frequencies for [G0_iw],
    with [n_tau] imaginary-time points (half bins) for the other two; and on
    a solver of that block structure [solve] returns with one insert move and
    one remove move registered for every block, each with the block's size
    and name. *)
Theorem ctor_blocks_and_moves (beta_ : Q) (gs : list (string * list Z)) (n_iw n_tau : Z)
    (st : ctqmc) :
  ctqmc_ctor beta_ gs n_iw n_tau = Ret st →
  (gf_struct st = gs ∧ beta st = beta_ ∧ well_formed st)
  ∧ (names (G0_iw st) = map fst gs ∧ names (G_tau st) = map fst gs
     ∧ names (Delta_tau st) = map fst gs)
  ∧ (length (blocks (G0_iw st)) = length gs ∧ length (blocks (G_tau st)) = length gs
     ∧ length (blocks (Delta_tau st)) = length gs)
  ∧ (∀ i bl, gs !! i = Some bl →
       let n := Z.of_nat (length bl.2) in
       ∃ (g0 : gf_imfreq) (g d : gf_imtime),
         (blocks (G0_iw st) !! i = Some g0 ∧ blocks (G_tau st) !! i = Some g
          ∧ blocks (Delta_tau st) !! i = Some d)
         ∧ (mesh g0 = Imfreq beta_ Fermion n_iw
            ∧ w_beta (mesh g0) = beta_ ∧ w_statistic (mesh g0) = Fermion
            ∧ w_n_max (mesh g0) = n_iw ∧ target_shape g0 = (n, n))
         ∧ (mesh g = Imtime beta_ Fermion n_tau half_bins
            ∧ t_beta (mesh g) = beta_ ∧ t_statistic (mesh g) = Fermion
            ∧ t_n_max (mesh g) = n_tau ∧ target_shape g = (n, n))
         ∧ (mesh d = Imtime beta_ Fermion n_tau half_bins
            ∧ t_beta (mesh d) = beta_ ∧ t_statistic (mesh d) = Fermion
            ∧ t_n_max (mesh d) = n_tau ∧ target_shape d = (n, n))
         ∧ (g0 = new_gf_imfreq (Imfreq beta_ Fermion n_iw) (n, n)
            ∧ g = new_gf_imtime (Imtime beta_ Fermion n_tau half_bins) (n, n)
            ∧ d = new_gf_imtime (Imtime beta_ Fermion n_tau half_bins) (n, n)))
  ∧ (∀ (w : world) (h : real_operator_t) (params : gmap string pvalue)
       (qn : list real_operator_t) (uq : bool) (self : ctqmc) (g p : bool) (t : Z),
       gf_struct self = gs → well_formed self → reads_options params g p t →
       ∃ self' loc,
         solve w h params qn uq self = Ret (self', loc)
         ∧ length (blocks (Delta_tau self')) = length gs
         ∧ ∀ b bl, gs !! b = Some bl →
             count_if (is_insert_for b) (mc_moves (l_qmc loc)) = 1%nat
             ∧ count_if (is_remove_for b) (mc_moves (l_qmc loc)) = 1%nat
             ∧ (move_insert_c_cdag b (Z.of_nat (length bl.2)) false, "Insert Delta_" +:+ bl.1)
               ∈ mc_moves (l_qmc loc)
             ∧ (move_remove_c_cdag b (Z.of_nat (length bl.2)), "Remove Delta_" +:+ bl.1)
               ∈ mc_moves (l_qmc loc)).
Proof.
  intros Hctor. pose proof (ctor_well_formed _ _ _ _ _ Hctor) as [Hgs Hwf].
  rewrite ctor_outcome in Hctor. destruct (ctor_rejects n_iw n_tau); [done |].
  injection Hctor as <-. simpl.
  split; [done |]. split; [done |]. split; [by rewrite !length_map |]. split.
  - intros i bl Hbl. rewrite !list_lookup_fmap, Hbl. simpl.
    eexists _, _, _. split; [done |]. done.
  - intros w h params qn uq self g p t <- Hself Hopt.
    destruct (solve_ret w h params qn uq self g p t Hself Hopt)
      as (qmc & Hsolve & _ & Hcount & Hin).
    destruct (well_formed_lengths self Hself) as (Hl0 & _ & _ & Hld & _).
    eexists _, _. split; [exact Hsolve |]. simpl. split.
    + rewrite length_zip_with. lia.
    + intros b bl Hbl. destruct (Hcount b) as (Hi & Hr & _). destruct (Hin b bl Hbl) as [Hmi Hmr].
      apply lookup_lt_Some in Hbl. rewrite Hi, Hr, in_span_all by done. done.
Qed.

(** C9: with [use_quantum_numbers] false, [solve] returns the same outcome,
    solver members and local variables alike, whatever quantum numbers it is
    given. *)
Theorem solve_ignores_quantum_numbers (w : world) (h : real_operator_t)
    (params : gmap string pvalue) (q1 q2 : list real_operator_t) (self : ctqmc) :
  solve w h params q1 false self = solve w h params q2 false self.
Proof. reflexivity. Qed.

End Properties.


(** ** The theorems at work on the symbolic instance *)

Module Examples.
Import Symbolic.

Ltac by_evaluation := repeat split; reflexivity.

Lemma solve_hybridization_witness :
  well_formed example_solver ∧ reads_options example_params true true (-1)
  ∧ ∃ self' loc,
      solve (MC:=sampler) tt "H" example_params [] false example_solver = Ret (self', loc)
      ∧ blocks (Delta_tau self') !! 1%nat
        = Some (Gf (Imtime 10 Fermion 7 half_bins) (1, 1)
                  ("inverse_fourier(sub(add(mul(tail(inverse(G0_up),-1),iw),"
                   +:+ "tail(inverse(G0_up),0)),inverse(G0_up)))")).
Proof.
  split; [by_evaluation |]. split; [by_evaluation |].
  destruct (solve_hybridization (MC:=sampler) tt "H" example_params [] false example_solver true true (-1)
              ltac:(by_evaluation) ltac:(by_evaluation))
    as (self' & loc & Hsolve & _ & Hall).
  exists self', loc. split; [exact Hsolve |].
  destruct (Hall 1%nat ("up", [0]) eq_refl) as (g0 & dt & Hg0 & Hdt & _ & Hnew).
  vm_compute in Hg0, Hdt. injection Hg0 as Hg0. injection Hdt as Hdt. subst g0 dt.
  exact (eq_trans Hnew eq_refl).
Defined.


Lemma solve_folds_quadratic_terms_witness :
  well_formed example_solver ∧ reads_options example_params true true (-1)
  ∧ ∃ self' loc terms,
      solve (MC:=sampler) tt "H" example_params [] false example_solver = Ret (self', loc)
      ∧ l_h_loc loc = fold_left op_add terms "H"
      ∧ length terms = 5%nat
      ∧ "mul(scale(1,c_dag(down,0)),c(down,1))" ∈ terms.
Proof.
  split; [by_evaluation |]. split; [by_evaluation |].
  destruct (solve_folds_quadratic_terms (MC:=sampler) tt "H" example_params [] false
              example_solver true true (-1) ltac:(by_evaluation) ltac:(by_evaluation))
    as (self' & loc & terms & Hsolve & Hh & _ & _ & Hmem & Hterms).
  exists self', loc, terms. split; [exact Hsolve |]. split; [exact Hh |]. split.
  - rewrite Hterms. reflexivity.
  - apply Hmem.
    exists 0%nat, (Gf (Imfreq 10 Fermion 3) (2, 2) "G0_down"), ("down", [0; 1]), 0, 1.
    split; [reflexivity |]. split; [reflexivity |].
    split; [apply list_elem_of_here |].
    split; [apply list_elem_of_further, list_elem_of_here |]. reflexivity.
Defined.

Lemma solve_starts_empty_with_sign_one_witness :
  well_formed example_solver ∧ reads_options example_params true true (-1)
  ∧ ∃ self' loc,
      solve (MC:=sampler) tt "H" example_params [] false example_solver = Ret (self', loc)
      ∧ l_initial_sign loc = 1%Q
      ∧ d_config (l_data loc) = [].
Proof.
  split; [by_evaluation |]. split; [by_evaluation |].
  destruct (solve_starts_empty_with_sign_one (MC:=sampler) tt "H" example_params [] false
              example_solver true true (-1) ltac:(by_evaluation) ltac:(by_evaluation))
    as (self' & loc & Hsolve & Hsign & Hconfig & _).
  by exists self', loc.
Defined.

Lemma solve_registers_measures_witness :
  well_formed example_solver ∧ reads_options example_params true true (-1)
  ∧ ∃ self' loc,
      solve (MC:=sampler) tt "H" example_params [] false example_solver = Ret (self', loc)
      ∧ count_if (is_measure_g_for 1) (mc_measures (l_qmc loc)) = 1%nat
      ∧ count_if (is_measure_hist_for 1) (mc_measures (l_qmc loc)) = 1%nat.
Proof.
  split; [by_evaluation |]. split; [by_evaluation |].
  destruct (solve_registers_measures (MC:=sampler) tt "H" example_params [] false
              example_solver true true (-1) ltac:(by_evaluation) ltac:(by_evaluation))
    as (self' & loc & Hsolve & _ & Hall).
  destruct (Hall 1%nat ("up", [0]) eq_refl) as (Hg & Hp & _).
  by exists self', loc.
Defined.

Lemma ctor_blocks_and_moves_witness :
  ctqmc_ctor 10 two_blocks 3 7 = Ret constructed_solver
  ∧ names (Delta_tau constructed_solver) = ["down"; "up"]
  ∧ (∃ g0 : gf_imfreq,
       blocks (G0_iw constructed_solver) !! 0%nat = Some g0
       ∧ g0 = Gf (Imfreq 10 Fermion 3) (2, 2) "0"
       ∧ w_n_max (mesh g0) = 3 ∧ w_beta (mesh g0) = 10%Q ∧ target_shape g0 = (2, 2))
  ∧ (∃ d : gf_imtime,
       blocks (Delta_tau constructed_solver) !! 1%nat = Some d
       ∧ mesh d = Imtime 10 Fermion 7 half_bins
       ∧ t_n_max (mesh d) = 7 ∧ t_beta (mesh d) = 10%Q ∧ target_shape d = (1, 1))
  ∧ ∃ self' loc,
      solve (MC:=sampler) tt "H" example_params [] false example_solver = Ret (self', loc)
      ∧ count_if (is_insert_for 0) (mc_moves (l_qmc loc)) = 1%nat
      ∧ count_if (is_remove_for 0) (mc_moves (l_qmc loc)) = 1%nat
      ∧ (move_insert_c_cdag 0 2 false, "Insert Delta_down") ∈ mc_moves (l_qmc loc).
Proof.
  assert (Hctor : ctqmc_ctor 10 two_blocks 3 7 = Ret constructed_solver) by reflexivity.
  split; [exact Hctor |].
  destruct (ctor_blocks_and_moves 10 two_blocks 3 7 constructed_solver Hctor)
    as (_ & (_ & _ & Hnames) & _ & Hblocks & Hsolve).
  split; [exact Hnames |].
  split.
  { destruct (Hblocks 0%nat ("down", [0; 1]) eq_refl)
      as (g0 & g & d & (H0 & _ & _) & (_ & Hb & _ & Hn & Hs) & _ & _ & (Hg0 & _ & _)).
    exists g0. split; [exact H0 |]. split; [exact (eq_trans Hg0 eq_refl) |].
    split; [exact Hn |]. split; [exact Hb | exact Hs]. }
  split.
  { destruct (Hblocks 1%nat ("up", [0]) eq_refl)
      as (g0 & g & d & (_ & _ & Hd) & _ & _ & (Hm & Hb & _ & Hn & Hs) & _).
    exists d. split; [exact Hd |]. split; [exact Hm |].
    split; [exact Hn |]. split; [exact Hb | exact Hs]. }
  destruct (Hsolve tt "H" example_params [] false example_solver true true (-1)
              eq_refl ltac:(by_evaluation) ltac:(by_evaluation))
    as (self' & loc & Hrun & _ & Hall).
  destruct (Hall 0%nat ("down", [0; 1]) eq_refl) as (Hi & Hr & Hmi & _).
  by exists self', loc.
Defined.

End Examples.

(** * Further properties of the source *)

(** ** [solve_parameters] across the workers *)

(** X8: two workers get the same defaults for every option other than the
    seed and the verbosity; their verbosity differs only between rank 0 and
    the other ranks. *)
Theorem solve_parameters_rank_independent (r1 r2 : Z) (key : string) :
  key ≠ "random_seed" →
  (key ≠ "verbosity" ∨ (r1 ≠ 0 ∧ r2 ≠ 0)) →
  solve_parameters r1 !! key = solve_parameters r2 !! key.
Proof.
  intros Hseed Hverb.
  destruct (decide (key = "verbosity")) as [-> | Hne].
  - destruct Hverb as [Hv | [H1 H2]]; [done |].
    apply Z.eqb_neq in H1, H2.
    unfold solve_parameters, add_field. simplify_map_eq. by rewrite H1, H2.
  - clear Hverb. unfold solve_parameters, add_field.
    repeat match goal with
           | |- context [<[?k := _]> _ !! key] =>
               destruct (decide (k = key)) as [<- | ?];
               [done || (by simplify_map_eq) | rewrite !(lookup_insert_ne _ k key) by done]
           end.
    reflexivity.
Qed.

Lemma solve_parameters_rank_independent_witness :
  solve_parameters 0 !! "n_warmup_cycles" = solve_parameters 7 !! "n_warmup_cycles"
  ∧ solve_parameters 3 !! "verbosity" = solve_parameters 7 !! "verbosity".
Proof.
  split.
  - apply solve_parameters_rank_independent; [discriminate | left; discriminate].
  - apply solve_parameters_rank_independent; [discriminate | right; lia].
Defined.

(** ** The template [map] *)

Lemma vector_map_from {A B : Type} (f : A → B) (V : list A) (acc : list B) :
  fold_left (λ res x, res ++ [f x]) V acc = acc ++ map f V.
Proof.
  revert acc. induction V as [| x V IH]; intros acc; simpl.
  - by rewrite app_nil_r.
  - rewrite IH. by rewrite <- app_assoc.
Qed.

(** X2: [map(f, V)] has the size of [V] and holds, at every position, [f] of
    the element of [V] at that position; on a block Green's function it gives
    as many blocks, and as many names, as the argument has blocks. *)
Theorem vector_map_elementwise {A B : Type} (f : A → B) (V : list A)
    (names_ : list string) :
  length (vector_map f V) = length V
  ∧ (∀ i, vector_map f V !! i = f <$> V !! i)
  ∧ blocks (block_gf_map f (Block_gf names_ V)) = vector_map f V
  ∧ domain_size (block_gf_map f (Block_gf names_ V)) = length V.
Proof.
  assert (Hmap : vector_map f V = map f V).
  { unfold vector_map. by rewrite vector_map_from. }
  split; [by rewrite Hmap, length_map |].
  split; [intros i; by rewrite Hmap, list_lookup_fmap |].
  split; [reflexivity |].
  unfold block_gf_map, make_block_gf_unnamed, domain_size. simpl.
  by rewrite length_map, length_seq, Hmap, length_map.
Qed.

Section MoreProperties.
Context `{T : Triqs} `{MC : !Sampler}.

(** ** The constructor *)

(** X1: as long as [2*n_iw] fits an [int], the constructor throws its
    runtime error exactly when [n_tau <= 2*n_iw], and returns a solver
    otherwise. *)
Theorem ctor_throws_iff (beta_ : Q) (gs : list (string * list Z)) (n_iw n_tau : Z) :
  Int.in_range (2 * n_iw) →
  (ctqmc_ctor beta_ gs n_iw n_tau = Raise (Runtime_error (too_few_tau_points n_iw n_tau))
   ↔ n_tau <= 2 * n_iw)
  ∧ ((∃ st, ctqmc_ctor beta_ gs n_iw n_tau = Ret st) ↔ 2 * n_iw < n_tau).
Proof.
  intros Hr. rewrite ctor_outcome.
  pose proof (ctor_rejects_iff n_iw n_tau Hr) as Hiff.
  destruct (ctor_rejects n_iw n_tau).
  - assert (Hle : n_tau <= 2 * n_iw) by (by apply Hiff). split.
    + split; [done | done].
    + split; [by intros [st Hst] | lia].
  - assert (Hgt : ¬ n_tau <= 2 * n_iw) by (intros H; by apply Hiff in H). split.
    + split; [done | lia].
    + split; [lia | by eexists].
Qed.

(** X12: the constructor looks at the number of indices of a block, never at
    the indices: two block structures with the same names and the same block
    sizes give the same three block Green's functions. *)
Theorem ctor_ignores_index_values (beta_ : Q) (gs1 gs2 : list (string * list Z))
    (n_iw n_tau : Z) (st1 st2 : ctqmc) :
  map fst gs1 = map fst gs2 →
  map (λ bl, length bl.2) gs1 = map (λ bl, length bl.2) gs2 →
  ctqmc_ctor beta_ gs1 n_iw n_tau = Ret st1 →
  ctqmc_ctor beta_ gs2 n_iw n_tau = Ret st2 →
  G0_iw st1 = G0_iw st2 ∧ G_tau st1 = G_tau st2 ∧ Delta_tau st1 = Delta_tau st2.
Proof.
  intros Hnames Hsizes. rewrite !ctor_outcome.
  destruct (ctor_rejects n_iw n_tau); [done |]. intros [= <-] [= <-]. simpl.
  assert (Hshape : map block_shape gs1 = map block_shape gs2).
  { change block_shape
      with ((λ n : nat, (Z.of_nat n, Z.of_nat n)) ∘ (λ bl : string * list Z, length bl.2)).
    rewrite <- !(map_map (λ bl : string * list Z, length bl.2)
                   (λ n : nat, (Z.of_nat n, Z.of_nat n))).
    by rewrite Hsizes. }
  assert (H0 : ∀ F : Z * Z → gf_imfreq,
             map (λ bl, F (block_shape bl)) gs1 = map (λ bl, F (block_shape bl)) gs2).
  { intros F. rewrite <- !(map_map block_shape F). by rewrite Hshape. }
  assert (H1 : ∀ F : Z * Z → gf_imtime,
             map (λ bl, F (block_shape bl)) gs1 = map (λ bl, F (block_shape bl)) gs2).
  { intros F. rewrite <- !(map_map block_shape F). by rewrite Hshape. }
  rewrite Hnames.
  rewrite (H0 (new_gf_imfreq (Imfreq beta_ Fermion n_iw))).
  rewrite (H1 (new_gf_imtime (Imtime beta_ Fermion n_tau half_bins))). done.
Qed.

(** ** The basis of operators *)

Lemma insert_all_app (ops1 ops2 : list (string * Z)) (f : fundamental_operator_set) :
  insert_all (ops1 ++ ops2) f = insert_all ops2 (insert_all ops1 f).
Proof. unfold insert_all. apply fold_left_app. Qed.

Lemma all_operators_app (gs1 gs2 : list (string * list Z)) :
  all_operators (gs1 ++ gs2) = all_operators gs1 ++ all_operators gs2.
Proof. unfold all_operators. apply flat_map_app. Qed.

Lemma all_operators_singleton (bl : string * list Z) :
  all_operators [bl] = map (pair bl.1) bl.2.
Proof. unfold all_operators. simpl. apply app_nil_r. Qed.

Lemma all_operators_cons (bl : string * list Z) (gs : list (string * list Z)) :
  all_operators (bl :: gs) = map (pair bl.1) bl.2 ++ all_operators gs.
Proof. reflexivity. Qed.

Lemma block_offset_bound (gs : list (string * list Z)) (b : nat) (bl : string * list Z) :
  gs !! b = Some bl → (block_offset gs b + length bl.2 ≤ length (all_operators gs))%nat.
Proof.
  intros Hbl. unfold block_offset.
  rewrite <- (take_drop_middle gs b bl Hbl) at 2.
  rewrite all_operators_app, all_operators_cons.
  rewrite !length_app, length_map. lia.
Qed.

Lemma basis_inner_fold (b : nat) (name : string) (f0 : fundamental_operator_set)
    (lin0 : gmap (nat * nat) Z) (ids : list Z) :
  let r := fold_left (basis_inner b name) ids (Basis f0 lin0, 0%nat) in
  r.2 = length ids
  ∧ fops r.1 = insert_all (map (pair name) ids) f0
  ∧ ∀ b' i, linindex r.1 !! (b', i)
      = if decide (b' = b) then
          match ids !! i with
          | Some a =>
              Some (fops_index (insert_all (map (pair name) (take (S i) ids)) f0) name a)
          | None => lin0 !! (b', i)
          end
        else lin0 !! (b', i).
Proof.
  induction ids as [| a ids IH] using rev_ind; simpl.
  - split; [done |]. split; [done |]. intros b' i. by case_decide.
  - rewrite fold_left_app. simpl.
    destruct (fold_left (basis_inner b name) ids (Basis f0 lin0, 0%nat)) as [[f lin] n].
    simpl in IH. destruct IH as (-> & -> & IH). simpl.
    rewrite map_app, insert_all_app. simpl.
    split; [rewrite length_app; simpl; lia |]. split; [done |].
    intros b' i. destruct (decide ((b, length ids) = (b', i))) as [[= <- <-] | Hne].
    + rewrite lookup_insert_eq. rewrite decide_True by done.
      rewrite list_lookup_middle by done.
      rewrite take_ge by (rewrite length_app; simpl; lia).
      by rewrite map_app, insert_all_app.
    + rewrite lookup_insert_ne by done. rewrite IH.
      case_decide as Hb; [| done]. subst b'.
      assert (i ≠ length ids) by congruence.
      destruct (decide (i < length ids)%nat) as [Hlt | Hge].
      * rewrite lookup_app_l by done. rewrite take_app_le by lia. done.
      * rewrite (lookup_ge_None_2 ids i) by lia.
        rewrite (lookup_ge_None_2 (ids ++ [a]) i) by (rewrite length_app; simpl; lia). done.
Qed.

Lemma operator_basis_fold (gs : list (string * list Z)) :
  let r := fold_left basis_outer gs (Basis fops_empty ∅, 0%nat) in
  r.2 = length gs
  ∧ fops r.1 = insert_all (all_operators gs) fops_empty
  ∧ ∀ b i, linindex r.1 !! (b, i)
      = match gs !! b with
        | Some bl =>
            match bl.2 !! i with
            | Some a =>
                Some (fops_index
                        (insert_all (take (S (block_offset gs b + i)) (all_operators gs))
                           fops_empty) bl.1 a)
            | None => None
            end
        | None => None
        end.
Proof.
  induction gs as [| bl gs IH] using rev_ind; simpl.
  - split; [done |]. split; [done |]. intros b i. by rewrite lookup_empty.
  - rewrite fold_left_app. simpl.
    destruct (fold_left basis_outer gs (Basis fops_empty ∅, 0%nat)) as [[f lin] n].
    simpl in IH. destruct IH as (-> & -> & IH). simpl.
    destruct (basis_inner_fold (length gs) bl.1 (insert_all (all_operators gs) fops_empty)
                lin bl.2) as (_ & Hf & Hlin).
    split; [rewrite length_app; simpl; lia |]. split.
    + rewrite Hf, all_operators_app, all_operators_singleton, insert_all_app. done.
    + intros b i. rewrite Hlin. case_decide as Hb.
      * subst b. rewrite list_lookup_middle by done.
        rewrite IH, (lookup_ge_None_2 gs (length gs)) by lia.
        destruct (bl.2 !! i) as [a |] eqn:Ha; [| done].
        unfold block_offset. rewrite take_app_length.
        rewrite all_operators_app, all_operators_singleton.
        replace (S (length (all_operators gs) + i))
          with (length (all_operators gs) + S i)%nat by lia.
        rewrite take_app_add, insert_all_app, <- fmap_take. done.
      * rewrite IH. destruct (decide (b < length gs)%nat) as [Hlt | Hge].
        -- rewrite lookup_app_l by done.
           destruct (gs !! b) as [bl0 |] eqn:Hbl0; [| done].
           destruct (bl0.2 !! i) as [a |] eqn:Ha; [| done].
           pose proof (block_offset_bound gs b bl0 Hbl0) as Hbound.
           apply lookup_lt_Some in Ha.
           assert (Hoff : block_offset (gs ++ [bl]) b = block_offset gs b).
           { unfold block_offset. by rewrite take_app_le by lia. }
           rewrite Hoff, all_operators_app, take_app_le by lia. done.
        -- rewrite (lookup_ge_None_2 gs b) by lia.
           rewrite (lookup_ge_None_2 (gs ++ [bl]) b) by (rewrite length_app; simpl; lia). done.
Qed.

(** X3: [linindex] has an entry for the pair (b, i) exactly when [b] is the
    position of a block of the block structure and [i] a position within the
    indices of that block. *)
Theorem linindex_domain (gs : list (string * list Z)) (b i : nat) :
  is_Some (linindex (operator_basis gs) !! (b, i))
  ↔ ∃ bl, gs !! b = Some bl ∧ (i < length bl.2)%nat.
Proof.
  unfold operator_basis. destruct (operator_basis_fold gs) as (_ & _ & Hlin).
  rewrite Hlin. split.
  - destruct (gs !! b) as [bl |]; [| by intros [? ?]].
    destruct (bl.2 !! i) as [a |] eqn:Ha; [| by intros [? ?]].
    intros _. exists bl. split; [done |]. by apply lookup_lt_Some in Ha.
  - intros (bl & -> & Hi). destruct (lookup_lt_is_Some_2 bl.2 i Hi) as [a ->]. by eexists.
Qed.

(** X4: [fops] ends up holding every operator of the block structure,
    inserted block after block and index after index; and the entry of
    [linindex] for the index [a] at position [i] of the block at position [b]
    is the index [fops] gave that operator right after its own insertion,
    that is, before any later operator was inserted. *)
Theorem linindex_read_at_insertion (gs : list (string * list Z)) (b i : nat)
    (bl : string * list Z) (a : Z) :
  gs !! b = Some bl → bl.2 !! i = Some a →
  fops (operator_basis gs) = insert_all (all_operators gs) fops_empty
  ∧ all_operators gs !! (block_offset gs b + i)%nat = Some (bl.1, a)
  ∧ linindex (operator_basis gs) !! (b, i)
    = Some (fops_index
              (insert_all (take (S (block_offset gs b + i)) (all_operators gs)) fops_empty)
              bl.1 a).
Proof.
  intros Hbl Ha. unfold operator_basis.
  destruct (operator_basis_fold gs) as (_ & Hf & Hlin).
  split; [exact Hf |]. split.
  - unfold block_offset. rewrite <- (take_drop_middle gs b bl Hbl) at 2.
    rewrite all_operators_app, all_operators_cons.
    rewrite lookup_app_r by lia.
    replace (length (all_operators (take b gs)) + i - length (all_operators (take b gs)))%nat
      with i by lia.
    rewrite lookup_app_l by (rewrite length_map; by apply lookup_lt_Some in Ha).
    by rewrite list_lookup_fmap, Ha.
  - by rewrite Hlin, Hbl, Ha.
Qed.

(** ** The registrations, in order *)

Lemma register_moves_exact (gs : list (string * list Z)) :
  ∀ (k : nat) (pre_n : list string) (pre_b dts : list gf_imtime) (qmc : mc_generic),
    length pre_n = k → length pre_b = k →
    map target_shape dts = map block_shape gs →
    foldM (register_moves_body (Block_gf (pre_n ++ map fst gs) (pre_b ++ dts)))
      (seq k (length gs)) qmc
    = Ret (Mc_generic (mc_params qmc)
             (mc_moves qmc ++ concat (imap (λ i, move_pair (k + i)) gs))
             (mc_measures qmc)).
Proof.
  induction gs as [| bl gs IH]; intros k pre_n pre_b dts qmc Hn Hb Hshape.
  - simpl. rewrite app_nil_r. by destruct qmc.
  - destruct dts as [| dt dts]; [done |]. simpl in Hshape. injection Hshape as Hdt Hshape.
    simpl length. simpl seq. rewrite foldM_cons.
    rewrite (register_moves_body_ret _ _ _ bl.1 dt).
    2:{ simpl. by rewrite list_lookup_middle. }
    2:{ simpl. by rewrite list_lookup_middle. }
    rewrite obind_ret. simpl map.
    rewrite (cons_middle bl.1 pre_n), (cons_middle dt pre_b), !app_assoc.
    rewrite IH; [| rewrite length_app; simpl; lia | rewrite length_app; simpl; lia | done].
    simpl. rewrite Hdt. unfold block_shape. simpl.
    rewrite Nat.add_0_r.
    assert (Hext : imap (λ i, move_pair (S (k + i))) gs = imap ((λ i, move_pair (k + i)) ∘ S) gs).
    { apply imap_ext. intros i x _. simpl. f_equal. lia. }
    rewrite Hext. by rewrite <- !app_assoc.
Qed.

Lemma measure_g_exact (gs : list (string * list Z)) :
  ∀ (k : nat) (pre_n : list string) (pre_b gts : list gf_imtime) (qmc : mc_generic),
    length pre_n = k → length pre_b = k → length gts = length gs →
    foldM (measure_g_body (Block_gf (pre_n ++ map fst gs) (pre_b ++ gts)))
      (seq k (length gs)) qmc
    = Ret (Mc_generic (mc_params qmc) (mc_moves qmc)
             (mc_measures qmc ++ imap (λ i, g_measure (k + i)) gs)).
Proof.
  induction gs as [| bl gs IH]; intros k pre_n pre_b gts qmc Hn Hb Hlen.
  - simpl. rewrite app_nil_r. by destruct qmc.
  - destruct gts as [| gt gts]; [done |]. simpl in Hlen.
    simpl length. simpl seq. rewrite foldM_cons.
    unfold measure_g_body at 1, block_at. simpl names. simpl blocks. simpl map.
    rewrite !at_index_middle by done. rewrite !obind_ret.
    rewrite (cons_middle bl.1 pre_n), (cons_middle gt pre_b), !app_assoc.
    rewrite IH; [| rewrite length_app; simpl; lia | rewrite length_app; simpl; lia | lia].
    simpl. rewrite Nat.add_0_r.
    assert (Hext : imap (λ i, g_measure (S (k + i))) gs = imap ((λ i, g_measure (k + i)) ∘ S) gs).
    { apply imap_ext. intros i x _. simpl. f_equal. lia. }
    rewrite Hext. by rewrite <- !app_assoc.
Qed.

Lemma measure_hist_exact (blocks_ : list gf_imtime) (gs : list (string * list Z)) :
  ∀ (k : nat) (pre_n : list string) (qmc : mc_generic),
    length pre_n = k →
    foldM (measure_hist_body (Block_gf (pre_n ++ map fst gs) blocks_))
      (seq k (length gs)) qmc
    = Ret (Mc_generic (mc_params qmc) (mc_moves qmc)
             (mc_measures qmc ++ imap (λ i, hist_measure (k + i)) gs)).
Proof.
  induction gs as [| bl gs IH]; intros k pre_n qmc Hn.
  - simpl. rewrite app_nil_r. by destruct qmc.
  - simpl length. simpl seq. rewrite foldM_cons.
    unfold measure_hist_body at 1. simpl names. simpl map.
    rewrite !at_index_middle by done. rewrite !obind_ret.
    rewrite (cons_middle bl.1 pre_n), !app_assoc.
    rewrite IH by (rewrite length_app; simpl; lia).
    simpl. rewrite Nat.add_0_r.
    assert (Hext : imap (λ i, hist_measure (S (k + i))) gs = imap ((λ i, hist_measure (k + i)) ∘ S) gs).
    { apply imap_ext. intros i x _. simpl. f_equal. lia. }
    rewrite Hext. by rewrite <- !app_assoc.
Qed.

Lemma delta_tau_of_layout (g0s : list gf_imfreq) (dts : list gf_imtime) :
  length g0s = length dts →
  map target_shape (zip_with delta_tau_of g0s dts) = map target_shape dts
  ∧ map mesh (zip_with delta_tau_of g0s dts) = map mesh dts.
Proof.
  revert dts. induction g0s as [| g0 g0s IH]; intros [| dt dts] Hlen; try done.
  simpl in Hlen. destruct (IH dts ltac:(lia)) as [Hs Hm]. simpl. by rewrite Hs, Hm.
Qed.

Lemma register_measures_exact (params : gmap string pvalue) (g p : bool) (t : Z)
    (gs : list (string * list Z)) (gts : list gf_imtime) (qmc : mc_generic) :
  reads_options params g p t → length gts = length gs →
  register_measures params (Block_gf (map fst gs) gts) qmc
  = Ret (Mc_generic (mc_params qmc) (mc_moves qmc)
           (mc_measures qmc ++ expected_measures g p gs)).
Proof.
  intros (Hg & Hp & _) Hlen. unfold register_measures, param_bool, domain_size.
  rewrite Hg, Hp, !obind_ret. simpl names. rewrite length_map.
  pose proof (measure_g_exact gs 0 [] [] gts qmc eq_refl eq_refl Hlen) as HG.
  simpl in HG. unfold expected_measures.
  destruct g.
  - rewrite HG, obind_ret. destruct p.
    + pose proof (measure_hist_exact gts gs 0 []
                    (Mc_generic (mc_params qmc) (mc_moves qmc)
                       (mc_measures qmc ++ imap (λ i, g_measure i) gs)) eq_refl) as HH.
      simpl in HH. rewrite HH. by rewrite <- app_assoc.
    + by rewrite app_nil_r.
  - rewrite obind_ret. destruct p.
    + pose proof (measure_hist_exact gts gs 0 [] qmc eq_refl) as HH.
      simpl in HH. by rewrite HH.
    + simpl. rewrite app_nil_r. by destruct qmc.
Qed.

(** [solve] in closed form, the driver included. *)
Lemma solve_closed_form (w : world) (h : real_operator_t) (params : gmap string pvalue)
    (qn : list real_operator_t) (uq : bool) (self : ctqmc) (g p : bool) (t : Z) :
  well_formed self → reads_options params g p t →
  let gs := gf_struct self in
  let g0s := blocks (G0_iw self) in
  let h' := fold_left op_add (all_quadratic_terms g0s gs) h in
  let G0_iw_inv := make_block_gf_unnamed (map inverse g0s) in
  let Delta_iw := Block_gf (names G0_iw_inv) (map delta_iw_of g0s) in
  let Delta_tau' :=
    Block_gf (names (Delta_tau self)) (zip_with delta_tau_of g0s (blocks (Delta_tau self))) in
  let G0' := Block_gf (names (G0_iw self)) (map weiss_field_after g0s) in
  let bs := operator_basis gs in
  let sp := if uq then sosp_of_quantum_numbers h' qn (fops bs)
            else sosp_of_hamiltonian h' (fops bs) in
  let data_ := new_qmc_data (beta self) params sp (linindex bs) Delta_tau' in
  let qmc := Mc_generic params (expected_moves gs) (expected_measures g p gs) in
  solve w h params qn uq self
  = Ret (Ctqmc (beta self) gs G0' (mc_run w qmc data_ 1%Q t (G_tau self)) Delta_tau' (Some sp),
         Solve_locals h' bs G0_iw_inv Delta_iw data_ qmc 1%Q t).
Proof.
  intros Hwf Hopt. simpl.
  destruct (well_formed_lengths self Hwf) as (Hl0 & Hlg & Hlgn & Hld & Hldn).
  destruct Hwf as (_ & (Hgn & _) & (Hdn & Hds)).
  unfold solve.
  rewrite add_quadratic_terms_ret by done. rewrite obind_ret.
  rewrite hybridization_ret by done. rewrite obind_ret. simpl hs_Delta_tau.
  unfold register_moves, domain_size. cbn [names]. rewrite Hldn, Hdn.
  destruct (delta_tau_of_layout (blocks (G0_iw self)) (blocks (Delta_tau self)) ltac:(lia))
    as [Hshape _].
  pose proof (register_moves_exact (gf_struct self) 0 [] []
                (zip_with delta_tau_of (blocks (G0_iw self)) (blocks (Delta_tau self)))
                (Mc_generic params [] []) eq_refl eq_refl ltac:(by rewrite Hshape)) as HM.
  simpl in HM. rewrite HM, obind_ret.
  destruct (G_tau self) as [gn gts] eqn:HG. simpl in Hgn, Hlg, Hlgn. subst gn.
  rewrite (register_measures_exact params g p t) by (done || lia).
  rewrite obind_ret. unfold param_int. destruct Hopt as (_ & _ & ->). rewrite obind_ret.
  reflexivity.
Qed.

Lemma expected_moves_lookup (gs : list (string * list Z)) :
  ∀ (f : nat → nat) (b : nat) (bl : string * list Z),
    gs !! b = Some bl →
    concat (imap (λ i, move_pair (f i)) gs) !! (2 * b)%nat
    = Some (move_insert_c_cdag (f b) (Z.of_nat (length bl.2)) false, "Insert Delta_" +:+ bl.1)
    ∧ concat (imap (λ i, move_pair (f i)) gs) !! (2 * b + 1)%nat
      = Some (move_remove_c_cdag (f b) (Z.of_nat (length bl.2)), "Remove Delta_" +:+ bl.1).
Proof.
  induction gs as [| bl0 gs IH]; intros f b bl Hbl; [done |].
  rewrite imap_cons. destruct b as [| b].
  - injection Hbl as ->. done.
  - simpl in Hbl. destruct (IH (f ∘ S) b bl Hbl) as [Hi Hr].
    replace (2 * S b)%nat with (S (S (2 * b))) by lia.
    replace (S (S (2 * b)) + 1)%nat with (S (S (2 * b + 1))) by lia.
    split; [exact Hi | exact Hr].
Qed.

Lemma expected_moves_length (gs : list (string * list Z)) :
  ∀ f : nat → nat, length (concat (imap (λ i, move_pair (f i)) gs)) = (2 * length gs)%nat.
Proof.
  induction gs as [| bl gs IH]; intros f; [done |].
  rewrite imap_cons. change (concat (?x :: ?l)) with (x ++ concat l).
  rewrite length_app. pose proof (IH (f ∘ S)) as H.
  change (length (concat (imap ((λ i, move_pair (f i)) ∘ S) gs)) = (2 * length gs)%nat) in H.
  rewrite H. simpl. lia.
Qed.

(** X5: on a well-formed solver [solve] registers two moves per block and no
    other: at positions 2b and 2b+1 of the driver, the insert move and then
    the remove move of the block at position b, with the block's size and
    under the names "Insert Delta_" and "Remove Delta_" followed by the block
    name. *)
Theorem solve_moves_in_order (w : world) (h : real_operator_t) (params : gmap string pvalue)
    (qn : list real_operator_t) (uq : bool) (self : ctqmc) (g p : bool) (t : Z) :
  well_formed self → reads_options params g p t →
  ∃ self' loc,
    solve w h params qn uq self = Ret (self', loc)
    ∧ length (mc_moves (l_qmc loc)) = (2 * length (gf_struct self))%nat
    ∧ ∀ b bl, gf_struct self !! b = Some bl →
        mc_moves (l_qmc loc) !! (2 * b)%nat
        = Some (move_insert_c_cdag b (Z.of_nat (length bl.2)) false, "Insert Delta_" +:+ bl.1)
        ∧ mc_moves (l_qmc loc) !! (2 * b + 1)%nat
          = Some (move_remove_c_cdag b (Z.of_nat (length bl.2)), "Remove Delta_" +:+ bl.1).
Proof.
  intros Hwf Hopt. eexists _, _.
  split; [exact (solve_closed_form w h params qn uq self g p t Hwf Hopt) |]. simpl.
  split.
  - apply (expected_moves_length _ (λ i, i)).
  - intros b bl Hbl. apply (expected_moves_lookup _ (λ i, i) b bl Hbl).
Qed.

(** X6: on a well-formed solver the measurements [solve] registers are, in
    this order, the Green's-function measurements of all blocks when
    [measure_g_tau] is on, then the perturbation-order measurements of all
    blocks when [measure_pert_order] is on, each list in block order; the
    histogram of a block goes to the file "histo_pert_order_", the block name,
    ".dat". *)
Theorem solve_measures_in_order (w : world) (h : real_operator_t)
    (params : gmap string pvalue) (qn : list real_operator_t) (uq : bool) (self : ctqmc)
    (g p : bool) (t : Z) :
  well_formed self → reads_options params g p t →
  ∃ self' loc,
    solve w h params qn uq self = Ret (self', loc)
    ∧ length (mc_measures (l_qmc loc))
      = ((if g then length (gf_struct self) else 0)
         + (if p then length (gf_struct self) else 0))%nat
    ∧ ∀ b bl, gf_struct self !! b = Some bl →
        (g = true →
         mc_measures (l_qmc loc) !! b = Some (measure_g b, "G measure (" +:+ bl.1 +:+ ")"))
        ∧ (p = true →
           mc_measures (l_qmc loc) !! ((if g then length (gf_struct self) else 0) + b)%nat
           = Some (measure_perturbation_hist b ("histo_pert_order_" +:+ bl.1 +:+ ".dat"),
                   "Perturbation order (" +:+ bl.1 +:+ ")")).
Proof.
  intros Hwf Hopt. eexists _, _.
  split; [exact (solve_closed_form w h params qn uq self g p t Hwf Hopt) |]. simpl.
  unfold expected_measures. split.
  - rewrite length_app. destruct g, p; simpl; rewrite ?length_imap; lia.
  - intros b bl Hbl. pose proof (lookup_lt_Some _ _ _ Hbl) as Hb. split.
    + intros ->. rewrite lookup_app_l by (by rewrite length_imap).
      by rewrite list_lookup_imap, Hbl.
    + intros ->. destruct g.
      * rewrite lookup_app_r by (rewrite length_imap; lia).
        rewrite length_imap.
        replace (length (gf_struct self) + b - length (gf_struct self))%nat with b by lia.
        by rewrite list_lookup_imap, Hbl.
      * simpl. by rewrite list_lookup_imap, Hbl.
Qed.

(** X7: [solve] changes neither [beta] nor the block structure; [Delta_tau]
    keeps its names, its meshes and its shapes, only its numbers are
    replaced; [G0_iw] keeps its names and its number of blocks; and the
    solver ends up with its atomic state space set. *)
Theorem solve_keeps_layout (w : world) (h : real_operator_t) (params : gmap string pvalue)
    (qn : list real_operator_t) (uq : bool) (self : ctqmc) (g p : bool) (t : Z) :
  well_formed self → reads_options params g p t →
  ∃ self' loc,
    solve w h params qn uq self = Ret (self', loc)
    ∧ beta self' = beta self
    ∧ gf_struct self' = gf_struct self
    ∧ names (Delta_tau self') = names (Delta_tau self)
    ∧ map mesh (blocks (Delta_tau self')) = map mesh (blocks (Delta_tau self))
    ∧ map target_shape (blocks (Delta_tau self'))
      = map target_shape (blocks (Delta_tau self))
    ∧ names (G0_iw self') = names (G0_iw self)
    ∧ length (blocks (G0_iw self')) = length (blocks (G0_iw self))
    ∧ is_Some (sosp self').
Proof.
  intros Hwf Hopt. eexists _, _.
  split; [exact (solve_closed_form w h params qn uq self g p t Hwf Hopt) |]. simpl.
  destruct (well_formed_lengths self Hwf) as (Hl0 & _ & _ & Hld & _).
  destruct (delta_tau_of_layout (blocks (G0_iw self)) (blocks (Delta_tau self)) ltac:(lia))
    as [Hshape Hmesh].
  rewrite length_map. repeat split; done.
Qed.

(** ** How many terms, and the empty block structure *)

Lemma block_terms_length (g : gf_imfreq) (bl : string * list Z) :
  length (block_terms g bl) = (length bl.2 * length bl.2)%nat.
Proof.
  assert (H : ∀ ids1 ids2 : list Z,
             length (flat_map (λ a1, map (λ a2, quadratic_term g bl.1 a1 a2) ids2) ids1)
             = (length ids1 * length ids2)%nat).
  { intros ids1 ids2. induction ids1 as [| a1 ids1 IH]; simpl; [done |].
    rewrite length_app, length_map, IH. lia. }
  apply H.
Qed.

Lemma all_quadratic_terms_length (gs : list (string * list Z)) :
  ∀ g0s : list gf_imfreq,
    length g0s = length gs →
    length (all_quadratic_terms g0s gs)
    = sum_list_with (λ bl : string * list Z, (length bl.2 * length bl.2)%nat) gs.
Proof.
  induction gs as [| bl gs IH]; intros [| g g0s] Hlen; try done.
  unfold all_quadratic_terms in *. simpl in *.
  rewrite length_app, block_terms_length, IH by lia. done.
Qed.

(** X9: on a well-formed solver [solve] adds to [h_loc] n*n quadratic terms
    for a block of n indices, diagonal pairs included, and so the sum of
    these squares in all; when no block has an index, [h_loc] reaches the
    atomic state space as it was supplied. *)
Theorem solve_quadratic_term_count (w : world) (h : real_operator_t)
    (params : gmap string pvalue) (qn : list real_operator_t) (uq : bool) (self : ctqmc)
    (g p : bool) (t : Z) :
  well_formed self → reads_options params g p t →
  ∃ self' loc terms,
    solve w h params qn uq self = Ret (self', loc)
    ∧ terms = all_quadratic_terms (blocks (G0_iw self)) (gf_struct self)
    ∧ l_h_loc loc = fold_left op_add terms h
    ∧ length terms
      = sum_list_with (λ bl : string * list Z, (length bl.2 * length bl.2)%nat)
          (gf_struct self)
    ∧ (Forall (λ bl : string * list Z, bl.2 = []) (gf_struct self) → l_h_loc loc = h).
Proof.
  intros Hwf Hopt. eexists _, _, _.
  split; [exact (solve_closed_form w h params qn uq self g p t Hwf Hopt) |].
  split; [reflexivity |]. simpl. split; [reflexivity |].
  destruct (well_formed_lengths self Hwf) as (Hl0 & _).
  pose proof (all_quadratic_terms_length (gf_struct self) (blocks (G0_iw self)) Hl0) as Hlen.
  split; [exact Hlen |].
  intros Hempty.
  assert (Hsum : sum_list_with (λ bl : string * list Z, (length bl.2 * length bl.2)%nat)
                   (gf_struct self) = 0%nat).
  { clear Hlen Hl0 Hwf. induction Hempty as [| bl gs Hbl _ IH]; [done |].
    simpl. by rewrite Hbl, IH. }
  rewrite Hsum in Hlen. apply nil_length_inv in Hlen. by rewrite Hlen.
Qed.

(** X10: on a solver without blocks [solve] still starts the run, with no
    move and no measurement registered, the supplied [h_loc], an empty
    [linindex], and [G0_iw] and [Delta_tau] left as they were. *)
Theorem solve_without_blocks (w : world) (h : real_operator_t) (params : gmap string pvalue)
    (qn : list real_operator_t) (uq : bool) (self : ctqmc) (g p : bool) (t : Z) :
  well_formed self → gf_struct self = [] → reads_options params g p t →
  ∃ self' loc,
    solve w h params qn uq self = Ret (self', loc)
    ∧ l_h_loc loc = h
    ∧ mc_moves (l_qmc loc) = []
    ∧ mc_measures (l_qmc loc) = []
    ∧ linindex (l_basis loc) = ∅
    ∧ fops (l_basis loc) = fops_empty
    ∧ G0_iw self' = G0_iw self
    ∧ Delta_tau self' = Delta_tau self
    ∧ G_tau self' = mc_run w (Mc_generic params [] []) (l_data loc) 1%Q t (G_tau self).
Proof.
  intros Hwf Hgs Hopt. eexists _, _.
  split; [exact (solve_closed_form w h params qn uq self g p t Hwf Hopt) |]. simpl.
  destruct (well_formed_lengths self Hwf) as (Hl0 & _ & _ & Hld & _).
  rewrite Hgs in *. simpl in Hl0, Hld.
  apply nil_length_inv in Hl0, Hld.
  destruct (G0_iw self) as [n0 b0], (Delta_tau self) as [nd bd]. simpl in *. subst b0 bd.
  unfold expected_measures. destruct g, p; done.
Qed.

(** ** The names of the registrations *)

Lemma string_length_append (s1 s2 : string) :
  String.length (s1 +:+ s2) = (String.length s1 + String.length s2)%nat.
Proof. induction s1 as [| ch s1 IH]; simpl; [done |]. by rewrite IH. Qed.

Lemma append_cons (ch : Ascii.ascii) (s t : string) :
  String ch s +:+ t = String ch (s +:+ t).
Proof. reflexivity. Qed.

Lemma append_inj_r (s1 s2 t : string) : s1 +:+ t = s2 +:+ t → s1 = s2.
Proof.
  revert s2. induction s1 as [| ch s1 IH]; intros [| ch' s2] Heq.
  - done.
  - apply (f_equal String.length) in Heq.
    rewrite !string_length_append in Heq. simpl in Heq. lia.
  - apply (f_equal String.length) in Heq.
    rewrite !string_length_append in Heq. simpl in Heq. lia.
  - rewrite !append_cons in Heq. injection Heq as -> Heq. f_equal. by apply IH.
Qed.

Lemma append_inj_l (s t1 t2 : string) : s +:+ t1 = s +:+ t2 → t1 = t2.
Proof.
  induction s as [| ch s IH]; intros Heq; [exact Heq |].
  rewrite !append_cons in Heq. injection Heq as Heq. by apply IH.
Qed.

Lemma move_names (gs : list (string * list Z)) :
  ∀ f : nat → nat,
    map snd (concat (imap (λ i, move_pair (f i)) gs))
    = flat_map (λ n, ["Insert Delta_" +:+ n; "Remove Delta_" +:+ n]) (map fst gs).
Proof.
  induction gs as [| bl gs IH]; intros f; [done |].
  rewrite imap_cons. change (concat (?x :: ?l)) with (x ++ concat l).
  rewrite map_app. pose proof (IH (f ∘ S)) as H.
  change (map snd (concat (imap ((λ i, move_pair (f i)) ∘ S) gs))
          = flat_map (λ n, ["Insert Delta_" +:+ n; "Remove Delta_" +:+ n]) (map fst gs)) in H.
  rewrite H. reflexivity.
Qed.

Lemma move_names_NoDup (ns : list string) :
  NoDup ns → NoDup (flat_map (λ n, ["Insert Delta_" +:+ n; "Remove Delta_" +:+ n]) ns).
Proof.
  induction 1 as [| n ns Hn Hnd IH]; [by apply NoDup_nil |].
  assert (Hrest : ∀ x, x ∈ flat_map (λ n, ["Insert Delta_" +:+ n; "Remove Delta_" +:+ n]) ns →
                    ∃ m, m ∈ ns ∧ (x = "Insert Delta_" +:+ m ∨ x = "Remove Delta_" +:+ m)).
  { intros x Hx. apply list_elem_of_In, in_flat_map in Hx as (m & Hm & Hx).
    exists m. rewrite list_elem_of_In. split; [done |].
    simpl in Hx. destruct Hx as [<- | [<- | []]]; auto. }
  simpl. apply NoDup_cons. split.
  - rewrite elem_of_cons. intros [Heq | Hin]; [discriminate Heq |].
    destruct (Hrest _ Hin) as (m & Hm & [Heq | Heq]); [| discriminate Heq].
    apply append_inj_l in Heq as ->. done.
  - apply NoDup_cons. split; [| done].
    intros Hin. destruct (Hrest _ Hin) as (m & Hm & [Heq | Heq]); [discriminate Heq |].
    apply append_inj_l in Heq as ->. done.
Qed.

Lemma measure_names (gs : list (string * list Z)) :
  map snd (imap g_measure gs) = map (λ n, "G measure (" +:+ n +:+ ")") (map fst gs)
  ∧ map snd (imap hist_measure gs)
    = map (λ n, "Perturbation order (" +:+ n +:+ ")") (map fst gs).
Proof.
  split; apply list_eq; intros i;
    rewrite !list_lookup_fmap, list_lookup_imap; by destruct (gs !! i).
Qed.

Lemma measure_names_NoDup (g p : bool) (ns : list string) :
  NoDup ns →
  NoDup ((if g then map (λ n, "G measure (" +:+ n +:+ ")") ns else [])
         ++ (if p then map (λ n, "Perturbation order (" +:+ n +:+ ")") ns else [])).
Proof.
  intros Hnd.
  assert (HG : NoDup (map (λ n, "G measure (" +:+ n +:+ ")") ns)).
  { apply NoDup_fmap_2_strong; [| done]. intros x y _ _ Heq.
    apply append_inj_l in Heq. by apply append_inj_r in Heq. }
  assert (HP : NoDup (map (λ n, "Perturbation order (" +:+ n +:+ ")") ns)).
  { apply NoDup_fmap_2_strong; [| done]. intros x y _ _ Heq.
    apply append_inj_l in Heq. by apply append_inj_r in Heq. }
  apply NoDup_app. split; [by destruct g; [| apply NoDup_nil] |].
  split; [| by destruct p; [| apply NoDup_nil]].
  intros x Hx Hx'. destruct g; [| by apply elem_of_nil in Hx].
  destruct p; [| by apply elem_of_nil in Hx'].
  apply list_elem_of_fmap in Hx as (a & -> & _).
  apply list_elem_of_fmap in Hx' as (b & Heq & _). discriminate Heq.
Qed.

(** X11: when the block names are pairwise distinct, as the keys of
    [gf_struct] are, the names under which [solve] registers its moves are
    pairwise distinct, and so are the names of its measurements. *)
Theorem solve_registration_names_distinct (w : world) (h : real_operator_t)
    (params : gmap string pvalue) (qn : list real_operator_t) (uq : bool) (self : ctqmc)
    (g p : bool) (t : Z) :
  well_formed self → reads_options params g p t →
  NoDup (map fst (gf_struct self)) →
  ∃ self' loc,
    solve w h params qn uq self = Ret (self', loc)
    ∧ NoDup (map snd (mc_moves (l_qmc loc)))
    ∧ NoDup (map snd (mc_measures (l_qmc loc))).
Proof.
  intros Hwf Hopt Hnd. eexists _, _.
  split; [exact (solve_closed_form w h params qn uq self g p t Hwf Hopt) |]. simpl.
  split.
  - unfold expected_moves. rewrite (move_names _ (λ i, i)). by apply move_names_NoDup.
  - unfold expected_measures. destruct (measure_names (gf_struct self)) as [HG HP].
    rewrite map_app.
    replace (map snd (if g then imap g_measure (gf_struct self) else []))
      with (if g then map (λ n, "G measure (" +:+ n +:+ ")") (map fst (gf_struct self)) else [])
      by (by destruct g).
    replace (map snd (if p then imap hist_measure (gf_struct self) else []))
      with (if p then map (λ n, "Perturbation order (" +:+ n +:+ ")")
                        (map fst (gf_struct self)) else [])
      by (by destruct p).
    by apply measure_names_NoDup.
Qed.

End MoreProperties.

(** ** The further properties at work on the symbolic instance *)

Module MoreExamples.
Import Symbolic MoreSymbolic.

Ltac by_evaluation := repeat split; reflexivity.

Lemma ctor_throws_iff_witness :
  Int.in_range (2 * 50)
  ∧ ctqmc_ctor 10 two_blocks 50 100 = Raise (Runtime_error (too_few_tau_points 50 100))
  ∧ ∃ st, ctqmc_ctor 10 two_blocks 50 101 = Ret st.
Proof.
  assert (Hr : Int.in_range (2 * 50)).
  { unfold Int.in_range, Int.min_int, Int.max_int, Int.half_modulus. lia. }
  split; [exact Hr |]. split.
  - apply (ctor_throws_iff 10 two_blocks 50 100 Hr). lia.
  - apply (ctor_throws_iff 10 two_blocks 50 101 Hr). lia.
Defined.

Lemma ctor_ignores_index_values_witness :
  G0_iw constructed_solver = G0_iw other_solver
  ∧ Delta_tau constructed_solver = Delta_tau other_solver.
Proof.
  destruct (ctor_ignores_index_values 10 two_blocks other_indices 3 7
              constructed_solver other_solver eq_refl eq_refl eq_refl eq_refl)
    as (H0 & _ & Hd).
  split; [exact H0 | exact Hd].
Defined.

Lemma linindex_read_at_insertion_witness :
  two_blocks !! 1%nat = Some ("up", [0]) ∧ [0] !! 0%nat = Some 0
  ∧ linindex (operator_basis two_blocks) !! (1%nat, 0%nat) = Some 2.
Proof.
  split; [reflexivity |]. split; [reflexivity |].
  destruct (linindex_read_at_insertion two_blocks 1 0 ("up", [0]) 0 eq_refl eq_refl)
    as (_ & _ & Hlin).
  exact (eq_trans Hlin eq_refl).
Defined.

Lemma solve_moves_in_order_witness :
  well_formed example_solver ∧ reads_options example_params true true (-1)
  ∧ ∃ self' loc,
      solve (MC:=sampler) tt "H" example_params [] false example_solver = Ret (self', loc)
      ∧ length (mc_moves (l_qmc loc)) = 4%nat
      ∧ mc_moves (l_qmc loc) !! 3%nat = Some (move_remove_c_cdag 1 1, "Remove Delta_up").
Proof.
  split; [by_evaluation |]. split; [by_evaluation |].
  destruct (solve_moves_in_order (MC:=sampler) tt "H" example_params [] false example_solver
              true true (-1) ltac:(by_evaluation) ltac:(by_evaluation))
    as (self' & loc & Hsolve & Hlen & Hall).
  exists self', loc. split; [exact Hsolve |]. split; [exact Hlen |].
  exact (proj2 (Hall 1%nat ("up", [0]) eq_refl)).
Defined.

Lemma solve_measures_in_order_witness :
  well_formed example_solver ∧ reads_options example_params true true (-1)
  ∧ ∃ self' loc,
      solve (MC:=sampler) tt "H" example_params [] false example_solver = Ret (self', loc)
      ∧ mc_measures (l_qmc loc) !! 3%nat
        = Some (measure_perturbation_hist 1 "histo_pert_order_up.dat",
                "Perturbation order (up)").
Proof.
  split; [by_evaluation |]. split; [by_evaluation |].
  destruct (solve_measures_in_order (MC:=sampler) tt "H" example_params [] false
              example_solver true true (-1) ltac:(by_evaluation) ltac:(by_evaluation))
    as (self' & loc & Hsolve & _ & Hall).
  exists self', loc. split; [exact Hsolve |].
  exact (proj2 (Hall 1%nat ("up", [0]) eq_refl) eq_refl).
Defined.

Lemma solve_keeps_layout_witness :
  well_formed example_solver ∧ reads_options g_only_params true false 60
  ∧ ∃ self' loc,
      solve (MC:=sampler) tt "H" g_only_params [] true example_solver = Ret (self', loc)
      ∧ names (Delta_tau self') = ["down"; "up"]
      ∧ map target_shape (blocks (Delta_tau self')) = [(2, 2); (1, 1)].
Proof.
  split; [by_evaluation |]. split; [by_evaluation |].
  destruct (solve_keeps_layout (MC:=sampler) tt "H" g_only_params [] true example_solver
              true false 60 ltac:(by_evaluation) ltac:(by_evaluation))
    as (self' & loc & Hsolve & _ & _ & Hn & _ & Hs & _).
  exists self', loc. split; [exact Hsolve |].
  split; [exact (eq_trans Hn eq_refl) | exact (eq_trans Hs eq_refl)].
Defined.

Lemma solve_quadratic_term_count_witness :
  well_formed example_solver ∧ reads_options example_params true true (-1)
  ∧ ∃ self' loc terms,
      solve (MC:=sampler) tt "H" example_params [] false example_solver = Ret (self', loc)
      ∧ l_h_loc loc = fold_left op_add terms "H"
      ∧ length terms = 5%nat.
Proof.
  split; [by_evaluation |]. split; [by_evaluation |].
  destruct (solve_quadratic_term_count (MC:=sampler) tt "H" example_params [] false
              example_solver true true (-1) ltac:(by_evaluation) ltac:(by_evaluation))
    as (self' & loc & terms & Hsolve & _ & Hh & Hlen & _).
  exists self', loc, terms. split; [exact Hsolve |]. split; [exact Hh |].
  exact (eq_trans Hlen eq_refl).
Defined.

Lemma solve_without_blocks_witness :
  well_formed empty_solver ∧ gf_struct empty_solver = []
  ∧ reads_options example_params true true (-1)
  ∧ ∃ self' loc,
      solve (MC:=sampler) tt "H" example_params [] false empty_solver = Ret (self', loc)
      ∧ l_h_loc loc = "H"
      ∧ mc_moves (l_qmc loc) = []
      ∧ mc_measures (l_qmc loc) = [].
Proof.
  split; [by_evaluation |]. split; [reflexivity |]. split; [by_evaluation |].
  destruct (solve_without_blocks (MC:=sampler) tt "H" example_params [] false empty_solver
              true true (-1) ltac:(by_evaluation) eq_refl ltac:(by_evaluation))
    as (self' & loc & Hsolve & Hh & Hm & Hms & _).
  by exists self', loc.
Defined.

Lemma solve_registration_names_distinct_witness :
  well_formed example_solver ∧ reads_options example_params true true (-1)
  ∧ NoDup (map fst (gf_struct example_solver))
  ∧ ∃ self' loc,
      solve (MC:=sampler) tt "H" example_params [] false example_solver = Ret (self', loc)
      ∧ NoDup (map snd (mc_moves (l_qmc loc)))
      ∧ NoDup (map snd (mc_measures (l_qmc loc))).
Proof.
  assert (Hnd : NoDup (map fst (gf_struct example_solver))).
  { change (NoDup ["down"; "up"]). apply NoDup_cons. split; [| apply NoDup_singleton].
    intros Hin. apply list_elem_of_singleton in Hin. discriminate Hin. }
  split; [by_evaluation |]. split; [by_evaluation |]. split; [exact Hnd |].
  destruct (solve_registration_names_distinct (MC:=sampler) tt "H" example_params [] false
              example_solver true true (-1) ltac:(by_evaluation) ltac:(by_evaluation) Hnd)
    as (self' & loc & Hsolve & Hm & Hms).
  by exists self', loc.
Defined.

End MoreExamples.
